(** * Evolve Words: a shallow embedding of [src/evolve_words/app.py]

    The mutation operators ([Mutate]), the evolution loop
    ([EvolveWordsApp.run_world]), the launcher ([EvolveWordsApp.start_world])
    and the vocabulary loader ([EvolveWordsApp.load_words] and
    [EvolveWordsApp.progenitor]).

    Words are [list ascii].  Python's shared random source is modelled as a
    stream of raw draws: [random._randbelow(n)] takes the next draw modulo
    [n]; [randint(a, b)] is [a + _randbelow(b - a + 1)] and [choice(xs)] is
    [xs[_randbelow(len(xs))]], as in CPython.  Every sequence of outcomes of
    these calls is produced by some stream, so a statement quantified over
    all streams is a statement over all random choices. *)

From Stdlib Require Import PrimFloat.
From Stdlib Require Uint63.
From Stdlib Require Import Ascii String ZArith Bool List Arith Lia Sorted Permutation.
Import ListNotations.
Open Scope nat_scope.

(** ** Words and the random source *)

Definition Word := list ascii.

Definition word (s : string) : Word := list_ascii_of_string s.

Definition word_eqb (a b : Word) : bool :=
  if list_eq_dec ascii_dec a b then true else false.

(** Membership in a Python [set] of words. *)
Definition mem (words : list Word) (w : Word) : bool :=
  existsb (word_eqb w) words.

Definition Rng := nat -> nat.

(** The random state monad. *)
Definition Rand (A : Type) := Rng -> A * Rng.

Definition rret {A} (a : A) : Rand A := fun r => (a, r).

Definition rbind {A B} (m : Rand A) (k : A -> Rand B) : Rand B :=
  fun r => let (a, r') := m r in k a r'.

Notation "x <-$ m ;; k" := (rbind m (fun x => k))
  (at level 61, m at next level, right associativity).

Definition randbelow (n : nat) : Rand nat :=
  fun r => (r 0 mod n, fun i => r (S i)).

Definition randint (a b : nat) : Rand nat :=
  k <-$ randbelow (b - a + 1) ;; rret (a + k).

Definition choice {A} (d : A) (xs : list A) : Rand A :=
  k <-$ randbelow (length xs) ;; rret (nth k xs d).

(** [string.ascii_lowercase] *)
Definition ascii_lowercase : list ascii := word "abcdefghijklmnopqrstuvwxyz".

(** ** [class Mutate] *)
Module Mutate.

Definition random_char : Rand ascii := choice "a"%char ascii_lowercase.

Definition point (w : Word) : Rand Word :=
  match w with
  | [] => rret w
  | _ =>
      position <-$ randint 0 (length w - 1) ;;
      c <-$ random_char ;;
      rret (firstn position w ++ [c] ++ skipn (position + 1) w)
  end.

Definition deletion (w : Word) : Rand Word :=
  match w with
  | [] => rret w
  | _ =>
      position <-$ randint 0 (length w - 1) ;;
      rret (firstn position w ++ skipn (position + 1) w)
  end.

Definition insertion (w : Word) : Rand Word :=
  match w with
  | [] => rret w
  | _ =>
      position <-$ randint 0 (length w - 1) ;;
      c <-$ random_char ;;
      rret (firstn position w ++ [c] ++ skipn position w)
  end.

Definition randomly (w : Word) : Rand Word :=
  f <-$ choice point [point; deletion; insertion] ;; f w.

End Mutate.

(** ** The heap objects shared with the message receiver

    [run_world] allocates one Python list, [survival], and passes that very
    object (not a copy) inside every [Progress] message.  A minimal heap of
    float lists makes that sharing explicit: a [Ref] is an index into it. *)

Definition Ref := nat.
Definition Heap := list (list float).

Definition load (h : Heap) (r : Ref) : list float := nth r h [].

Fixpoint store (h : Heap) (r : Ref) (v : list float) : Heap :=
  match h, r with
  | [], _ => []
  | _ :: h', O => v :: h'
  | x :: h', S r' => x :: store h' r' v
  end.

Definition alloc (h : Heap) (v : list float) : Ref * Heap := (length h, h ++ [v]).

(** [list.append] on the list object at [r]. *)
Definition append (h : Heap) (r : Ref) (x : float) : Heap :=
  store h r (load h r ++ [x]).

(** [set(population)] *)
Definition unique (ws : list Word) : list Word :=
  nodup (list_eq_dec ascii_dec) ws.

(** [EvolveWordsApp.Progress] *)
Module Progress.
Record t := mk {
  population_size : nat;
  unique_words : list Word;
  generation : nat;
  last_cull : nat;
  survival_history : Ref
}.
End Progress.

(** The outcome of a run: the notification sent at the end of
    [run_world], or none at all when the worker returned on cancellation.
    [OutOfFuel] only marks the end of the iteration bound of the model. *)
Inductive Outcome :=
| Reached (unique_count : nat) (generations : nat)
| Collapsed
| Cancelled
| OutOfFuel.

(** The local state of [run_world], plus the random source, the number of
    polls of [worker.is_cancelled] so far, and the messages posted so far. *)
Record World := mkWorld {
  population : list Word;
  generation : nat;
  survival : Ref;
  heap : Heap;
  rng : Rng;
  polls : nat;
  events : list Progress.t
}.

Section RunWorld.

(** [self._words] *)
Variable words : list Word.
(** [worker.is_cancelled] at its n-th poll. *)
Variable is_cancelled : nat -> bool.

(** The offspring loop: [for word in population: if worker.is_cancelled:
    return; offspring.append(Mutate.randomly(word))].  [None] is the
    [return]. *)
Fixpoint expand (pop offspring : list Word) (r : Rng) (n : nat)
  : option (list Word * Rng * nat) :=
  match pop with
  | [] => Some (offspring, r, n)
  | w :: rest =>
      if is_cancelled n then None
      else let (child, r') := Mutate.randomly w r in
           expand rest (offspring ++ [child]) r' (S n)
  end.

(** [float(n)] for a Python [int] (round to nearest); exact below 2^53,
    far above any population a run can hold in memory. *)
Definition to_float (n : nat) : float := of_uint63 (Uint63.of_Z (Z.of_nat n)).

(** The survival rate appended for a generation:
    [(100 / before) * len(population)] in IEEE double precision
    ([int / int] is the rounded quotient, then [float * int] rounds the
    product), or the [int] [0] when nobody survived, the float [0.0] here. *)
Definition survival_rate (before : nat) (population : list Word) : float :=
  match population with
  | [] => 0%float
  | _ => ((100 / to_float before) * to_float (length population))%float
  end.

(** One pass of the [while] body. *)
Definition generation_step (w : World) : option World :=
  match expand (population w) [] (rng w) (polls w) with
  | None => None
  | Some (offspring, r', n') =>
      let population0 := population w ++ offspring in
      let before := length population0 in
      let population1 := filter (mem words) population0 in
      let heap1 := append (heap w) (survival w) (survival_rate before population1) in
      let ev := Progress.mk (length population1) (unique population1)
                  (generation w) (before - length population1) (survival w) in
      Some (mkWorld population1 (S (generation w)) (survival w) heap1 r' n'
                    (events w ++ [ev]))
  end.

(** [while population and len(population) < target_population] *)
Definition guard (target_population : Z) (pop : list Word) : bool :=
  match pop with
  | [] => false
  | _ => (Z.of_nat (length pop) <? target_population)%Z
  end.

(** The final notification. *)
Definition finish (w : World) : Outcome :=
  match population w with
  | [] => Collapsed
  | pop => Reached (length (unique pop)) (generation w)
  end.

Fixpoint loop (target_population : Z) (fuel : nat) (w : World) : World * Outcome :=
  match fuel with
  | O => (w, OutOfFuel)
  | S fuel' =>
      if guard target_population (population w) then
        match generation_step w with
        | None => (w, Cancelled)
        | Some w' => loop target_population fuel' w'
        end
      else (w, finish w)
  end.

Definition init_world (h0 : Heap) (r : Rng) (progenitor : Word) : World :=
  let (s, h) := alloc h0 [] in mkWorld [progenitor] 0 s h r 0 [].

(** [EvolveWordsApp.run_world], run for at most [fuel] loop tests. *)
Definition run_world (h0 : Heap) (r : Rng) (progenitor : Word)
    (target_population : Z) (fuel : nat) : World * Outcome :=
  loop target_population fuel (init_world h0 r progenitor).

End RunWorld.

(** ** Launching a run: [start_world], [load_words], [progenitor] *)

(** [EvolveWordsApp.DEFAULT_TARGET] *)
Definition DEFAULT_TARGET : Z := 3000.

(** [str.isspace] on ASCII, the separators of [str.split()]. *)
Definition is_space (c : ascii) : bool :=
  let n := nat_of_ascii c in
  ((9 <=? n) && (n <=? 13)) || ((28 <=? n) && (n <=? 32)).

Fixpoint split_aux (s : list ascii) (cur : Word) : list Word :=
  match s with
  | [] => match cur with [] => [] | _ => [rev cur] end
  | c :: s' =>
      if is_space c then
        match cur with
        | [] => split_aux s' []
        | _ => rev cur :: split_aux s' []
        end
      else split_aux s' (c :: cur)
  end.

(** [str.split()] *)
Definition split (s : string) : list Word := split_aux (list_ascii_of_string s) [].

(** [str.lower()] on ASCII. *)
Definition lower_char (c : ascii) : ascii :=
  let n := nat_of_ascii c in
  if (65 <=? n) && (n <=? 90) then ascii_of_nat (n + 32) else c.

Definition lower (w : Word) : Word := map lower_char w.

(** [EvolveWordsApp.load_words]: [set(word.lower() for word in text.split())]. *)
Definition load_words (text : string) : list Word :=
  unique (map lower (split text)).

(** [EvolveWordsApp.progenitor]: [choice] of the one-letter words; [None]
    is the [IndexError] of [choice] on an empty list. *)
Definition progenitor (words : list Word) : Rand (option Word) :=
  match filter (fun w => length w =? 1) words with
  | [] => rret None
  | candidates => p <-$ choice [] candidates ;; rret (Some p)
  end.

(** What [start_world] ends in: a call [run_world(progenitor, target)]
    with [input] the value read from the [IntInput], or the [IndexError]
    of [self.progenitor()] when the vocabulary has no one-letter word; the
    exception leaves [start_world] and no run starts. *)
Inductive Start :=
| Started (input : option Z) (target : Z) (p : Word)
| NoProgenitor.

(** [EvolveWordsApp.start_world]: [value] is the result of
    [int(self.query_one(IntInput).value)], [None] for a [ValueError].  A
    target below 1 writes the default into the input and calls
    [start_world] again ([depth] bounds that recursion); otherwise the
    progenitor is drawn and the run started. *)
Fixpoint start_world (words : list Word) (depth : nat) (value : option Z)
    : Rand (option Start) :=
  match depth with
  | O => rret None
  | S depth' =>
      let target_population := match value with Some n => n | None => 0%Z end in
      if (target_population <? 1)%Z then start_world words depth' (Some DEFAULT_TARGET)
      else
        p <-$ progenitor words ;;
        rret (Some (match p with
                    | Some p => Started value target_population p
                    | None => NoProgenitor
                    end))
  end.

(** ** The widgets: [IntInput], [Words], [SizeCounts] *)

Fixpoint drop_spaces (space : ascii -> bool) (s : list ascii) : list ascii :=
  match s with
  | c :: s' => if space c then drop_spaces space s' else s
  | [] => []
  end.


(** The whitespace [int()] skips around the digits of an ASCII string
    ([Py_ISSPACE]): [" \t\n\v\f\r"], not the separators 28-31 that
    [str.isspace] also accepts. *)
Definition is_int_space (c : ascii) : bool :=
  let n := nat_of_ascii c in ((9 <=? n) && (n <=? 13)) || (n =? 32).

Definition int_strip (s : list ascii) : list ascii :=
  rev (drop_spaces is_int_space (rev (drop_spaces is_int_space s))).

Definition is_digit (c : ascii) : bool :=
  let n := nat_of_ascii c in (48 <=? n) && (n <=? 57).

Definition digit_value (c : ascii) : Z := Z.of_nat (nat_of_ascii c - 48).

(** The digits of [int()]: one underscore at most between two digits;
    [prev_digit] says whether the last character read was a digit. *)
Fixpoint digits_value (s : list ascii) (acc : Z) (prev_digit : bool) : option Z :=
  match s with
  | [] => if prev_digit then Some acc else None
  | c :: s' =>
      if is_digit c then digits_value s' (acc * 10 + digit_value c)%Z true
      else if Ascii.eqb c "_" && prev_digit then digits_value s' acc false
      else None
  end.

(** [int(value)] on an ASCII string; [None] is the [ValueError]. *)
Definition parse_int (s : list ascii) : option Z :=
  match int_strip s with
  | "+"%char :: t => digits_value t 0 false
  | "-"%char :: t => option_map Z.opp (digits_value t 0 false)
  | t => digits_value t 0 false
  end.


(** Python's [sorted] on values with a total order [leb]; insertion sort
    gives the same result for the inputs below, which have no two equal
    elements. *)
Section Sorting.
Context {A : Type} (leb : A -> A -> bool).

Fixpoint insert (x : A) (l : list A) : list A :=
  match l with
  | [] => [x]
  | y :: l' => if leb x y then x :: y :: l' else y :: insert x l'
  end.

Fixpoint sorted (l : list A) : list A :=
  match l with
  | [] => []
  | x :: l' => insert x (sorted l')
  end.
End Sorting.

(** [str] comparison: code points, lexicographically, a prefix first. *)
Fixpoint str_leb (a b : Word) : bool :=
  match a, b with
  | [], _ => true
  | _ :: _, [] => false
  | x :: a', y :: b' =>
      if nat_of_ascii x <? nat_of_ascii y then true
      else if nat_of_ascii x =? nat_of_ascii y then str_leb a' b'
      else false
  end.

(** [" ".join(words)] *)
Fixpoint join_space (ws : list Word) : list ascii :=
  match ws with
  | [] => []
  | [w] => w
  | w :: ws' => w ++ " "%char :: join_space ws'
  end.

(** [Words.update]: the text shown for a set of unique words. *)
Definition words_text (unique_words : list Word) : list ascii :=
  join_space (sorted str_leb unique_words).

(** [Counter]: counts in the order keys are first seen. *)
Fixpoint counter_add (k : nat) (c : list (nat * nat)) : list (nat * nat) :=
  match c with
  | [] => [(k, 1)]
  | (k', n) :: c' => if k =? k' then (k', S n) :: c' else (k', n) :: counter_add k c'
  end.

Definition counter (ks : list nat) : list (nat * nat) :=
  fold_left (fun c k => counter_add k c) ks [].

(** Tuple comparison of [(size, count)] items. *)
Definition pair_leb (a b : nat * nat) : bool :=
  (fst a <? fst b) || ((fst a =? fst b) && (snd a <=? snd b)).

(** [str(n)] for a natural number. *)
Fixpoint dec_aux (fuel n : nat) : list ascii :=
  match fuel with
  | O => []
  | S fuel' =>
      if n <? 10 then [ascii_of_nat (48 + n)]
      else dec_aux fuel' (n / 10) ++ [ascii_of_nat (48 + n mod 10)]
  end.

Definition dec_digits (n : nat) : list ascii := dec_aux (S n) n.

(** A comma after every three digits, read from the right. *)
Fixpoint group_rev (l : list ascii) : list ascii :=
  match l with
  | a :: b :: c :: ((_ :: _) as rest) => a :: b :: c :: ","%char :: group_rev rest
  | _ => l
  end.

(** [f"{count:,}"] *)
Definition format_count (n : nat) : list ascii := rev (group_rev (rev (dec_digits n))).

(** [SizeCounts.update]: the rows [(size, f"{count:,}")]. *)
Definition size_count_rows (unique_words : list Word) : list (nat * list ascii) :=
  map (fun sc => (fst sc, format_count (snd sc)))
    (sorted pair_leb (counter (map (@length ascii) unique_words))).

(** ** Helpers for stating properties *)


(** Characters other than the grouping comma of [f"{count:,}"]. *)
Definition not_comma (c : ascii) : bool := negb (Ascii.eqb c ",").

(** One step of reading a decimal numeral. *)
Definition digit_step (acc : Z) (c : ascii) : Z := (acc * 10 + digit_value c)%Z.

(** The total count a [Counter] holds for key [j]. *)
Definition cnt (c : list (nat * nat)) (j : nat) : nat :=
  fold_right (fun p acc => if fst p =? j then snd p + acc else acc) 0 c.

(** The rate [run_world] appends, recomputed from the fields of the
    generation's [Progress] message: [after] is [population_size] and
    [before] is [population_size + last_cull]. *)
Definition reported_survival_rate (ev : Progress.t) : float :=
  let after := Progress.population_size ev in
  let before := after + Progress.last_cull ev in
  if after =? 0 then 0%float else ((100 / to_float before) * to_float after)%float.

(** The word with the character at index [p] removed. *)
Definition remove_at (p : nat) (w : Word) : Word := firstn p w ++ skipn (p + 1) w.

(** ** Statements in the spec's words *)

(** The insertion of the spec: letter [c] at index [p], [0 <= p <= len(w)]. *)
Definition spec_insertion_at (w : Word) (p : nat) (c : ascii) : Word :=
  firstn p w ++ [c] ++ skipn p w.

(** The child relation: [c] is one outcome of [Mutate.randomly p]. *)
Definition child_of (p c : Word) : Prop := exists r, fst (Mutate.randomly p r) = c.

(** The survival ratio as the claim words it, [100 * after / before]
    (evaluated as Python would: the [int] product, then a correctly
    rounded division), from the [Progress] message of the generation:
    [before] is [population_size + last_cull] and [after] is
    [population_size]. *)
Definition claimed_survival_ratio (ev : Progress.t) : float :=
  let after := Progress.population_size ev in
  let before := after + Progress.last_cull ev in
  if 0 <? before then (to_float (100 * after) / to_float before)%float else 0%float.

(** Every character is unchanged by [lower_char] and is a lowercase ASCII
    letter or a character of the progenitor [p]. *)
Definition lower_from (p x : Word) : Prop :=
  forall c, In c x -> lower_char c = c /\ (In c ascii_lowercase \/ In c p).

(** * Properties *)

(** ** The random primitives *)

Lemma randint_bounds (a b : nat) (r : Rng) :
  a <= b -> a <= fst (randint a b r) <= b.
Proof.
  intros Hab. unfold randint, rbind, randbelow, rret; cbn.
  pose proof (Nat.mod_upper_bound (r 0) (b - a + 1)). lia.
Qed.

Lemma choice_In {A} (d : A) (xs : list A) (r : Rng) :
  xs <> [] -> In (fst (choice d xs r)) xs.
Proof.
  intros Hxs. unfold choice, rbind, randbelow, rret; cbn.
  apply nth_In, Nat.mod_upper_bound. destruct xs; [congruence | discriminate].
Qed.

Lemma random_char_lowercase (r : Rng) :
  In (fst (Mutate.random_char r)) ascii_lowercase.
Proof. apply choice_In. discriminate. Qed.

(** The shapes of the three operators' results: which index and letter
    were drawn. *)
Lemma point_shape (w : Word) (r : Rng) :
  w <> [] ->
  exists p c, p < length w /\ In c ascii_lowercase /\
    fst (Mutate.point w r) = firstn p w ++ [c] ++ skipn (p + 1) w.
Proof.
  intros Hw. destruct w as [|x w']; [congruence|].
  unfold Mutate.point. unfold rbind at 1.
  pose proof (randint_bounds 0 (length (x :: w') - 1) r ltac:(lia)) as Hp.
  destruct (randint 0 (length (x :: w') - 1) r) as [p r1]. cbn in Hp.
  unfold rbind. pose proof (random_char_lowercase r1) as Hc.
  destruct (Mutate.random_char r1) as [c r2].
  exists p, c. cbn [fst rret] in *. repeat split; auto. cbn in Hp |- *. lia.
Qed.

Lemma deletion_shape (w : Word) (r : Rng) :
  w <> [] ->
  exists p, p < length w /\
    fst (Mutate.deletion w r) = firstn p w ++ skipn (p + 1) w.
Proof.
  intros Hw. destruct w as [|x w']; [congruence|].
  unfold Mutate.deletion. unfold rbind at 1.
  pose proof (randint_bounds 0 (length (x :: w') - 1) r ltac:(lia)) as Hp.
  destruct (randint 0 (length (x :: w') - 1) r) as [p r1]. cbn in Hp.
  exists p. cbn [fst rret]. split; auto. cbn in Hp |- *. lia.
Qed.

Lemma insertion_shape (w : Word) (r : Rng) :
  w <> [] ->
  exists p c, p < length w /\ In c ascii_lowercase /\
    fst (Mutate.insertion w r) = firstn p w ++ [c] ++ skipn p w.
Proof.
  intros Hw. destruct w as [|x w']; [congruence|].
  unfold Mutate.insertion. unfold rbind at 1.
  pose proof (randint_bounds 0 (length (x :: w') - 1) r ltac:(lia)) as Hp.
  destruct (randint 0 (length (x :: w') - 1) r) as [p r1]. cbn in Hp.
  unfold rbind. pose proof (random_char_lowercase r1) as Hc.
  destruct (Mutate.random_char r1) as [c r2].
  exists p, c. cbn [fst rret] in *. repeat split; auto. cbn in Hp |- *. lia.
Qed.

(** [Mutate.randomly] applies one of the three operators. *)
Lemma randomly_cases (w : Word) (r : Rng) :
  exists r', fst (Mutate.randomly w r) = fst (Mutate.point w r')
          \/ fst (Mutate.randomly w r) = fst (Mutate.deletion w r')
          \/ fst (Mutate.randomly w r) = fst (Mutate.insertion w r').
Proof.
  unfold Mutate.randomly, choice, rbind, randbelow, rret; cbn -[Nat.modulo].
  exists (fun i => r (S i)).
  pose proof (Nat.mod_upper_bound (r 0) 3 ltac:(lia)) as Hk.
  destruct (r 0 mod 3) as [|[|[|k]]]; cbn; auto; lia.
Qed.

Lemma last_app_cons {A} (l l' : list A) (a d : A) :
  last (l ++ a :: l') d = last (a :: l') d.
Proof.
  induction l as [|x l IH]; [reflexivity|].
  rewrite <- app_comm_cons. cbn [last]. rewrite IH.
  destruct l; cbn; [reflexivity|]. destruct (l ++ a :: l'); reflexivity.
Qed.

(** ** C8: the length effect of each operator *)

(** C8: for every nonempty word and every outcome of the random draws,
    [point] keeps the length, [deletion] shortens by one, [insertion]
    lengthens by one, so [randomly] changes the length by at most one. *)
Theorem mutation_lengths (w : Word) (r : Rng) :
  w <> [] ->
  length (fst (Mutate.point w r)) = length w /\
  length (fst (Mutate.deletion w r)) = length w - 1 /\
  length (fst (Mutate.insertion w r)) = length w + 1 /\
  length w - 1 <= length (fst (Mutate.randomly w r)) <= length w + 1.
Proof.
  intros Hw.
  assert (Hpt : forall r', length (fst (Mutate.point w r')) = length w).
  { intros r'. destruct (point_shape w r' Hw) as (p & c & Hp & _ & ->).
    rewrite !length_app, length_firstn, length_skipn. cbn. lia. }
  assert (Hdel : forall r', length (fst (Mutate.deletion w r')) = length w - 1).
  { intros r'. destruct (deletion_shape w r' Hw) as (p & Hp & ->).
    rewrite length_app, length_firstn, length_skipn. lia. }
  assert (Hins : forall r', length (fst (Mutate.insertion w r')) = length w + 1).
  { intros r'. destruct (insertion_shape w r' Hw) as (p & c & Hp & _ & ->).
    rewrite !length_app, length_firstn, length_skipn. cbn. lia. }
  split; [apply Hpt|]. split; [apply Hdel|]. split; [apply Hins|].
  destruct (randomly_cases w r) as (r' & [E | [E | E]]); rewrite E;
    [rewrite Hpt | rewrite Hdel | rewrite Hins]; lia.
Qed.

Lemma mutation_lengths_witness :
  word "cat" <> [] /\
  length (fst (Mutate.point (word "cat") (fun i => i))) = 3 /\
  length (fst (Mutate.deletion (word "cat") (fun i => i))) = 3 - 1 /\
  length (fst (Mutate.insertion (word "cat") (fun i => i))) = 3 + 1 /\
  3 - 1 <= length (fst (Mutate.randomly (word "cat") (fun i => i))) <= 3 + 1.
Proof.
  split; [discriminate|].
  apply (mutation_lengths (word "cat") (fun i => i)). discriminate.
Defined.

(** ** C2: the insertion index *)

(** [Mutate.insertion] draws its index with [randint(0, len(word) - 1)],
    so the inserted letter always lands before the last character. *)
Lemma insertion_keeps_last (w : Word) (r : Rng) (d : ascii) :
  w <> [] -> last (fst (Mutate.insertion w r)) d = last w d.
Proof.
  intros Hw. destruct (insertion_shape w r Hw) as (p & c & Hp & _ & ->).
  cbn [app]. rewrite last_app_cons.
  rewrite <- (firstn_skipn p w) at 2.
  destruct (skipn p w) as [|a l] eqn:E.
  - apply (f_equal (@length ascii)) in E. rewrite length_skipn in E. cbn in E. lia.
  - rewrite last_app_cons. cbn. destruct l; reflexivity.
Qed.

(** C2: on the word "b" no draw of the random source makes [insertion]
    put the letter after the last character: "bz", the spec's insertion at
    index len(w) = 1 of the letter z, is never produced. *)
Theorem insertion_never_appends :
  spec_insertion_at (word "b") (length (word "b")) "z"%char = word "bz" /\
  forall r, fst (Mutate.insertion (word "b") r) <> word "bz".
Proof.
  split; [reflexivity|]. intros r E. pose proof (insertion_keeps_last (word "b") r "a"%char ltac:(discriminate)) as H.
  rewrite E in H. discriminate H.
Qed.

(** ** The loop: generic facts *)

Lemma mem_In (words : list Word) (w : Word) : mem words w = true <-> In w words.
Proof.
  unfold mem. rewrite existsb_exists. split.
  - intros (v & Hv & E). unfold word_eqb in E.
    destruct (list_eq_dec ascii_dec w v); [subst; exact Hv | discriminate].
  - intros H. exists w. split; [exact H|]. unfold word_eqb.
    destruct (list_eq_dec ascii_dec w w); [reflexivity | congruence].
Qed.

Lemma load_store (h : Heap) (r : Ref) (v : list float) :
  r < length h -> load (store h r v) r = v.
Proof.
  revert r. induction h as [|x h IH]; intros [|r] Hr; cbn in *; try lia; auto.
  apply IH. lia.
Qed.

Lemma length_store (h : Heap) (r : Ref) (v : list float) :
  length (store h r v) = length h.
Proof.
  revert r. induction h as [|x h IH]; intros [|r]; cbn; auto.
Qed.

Section LoopFacts.

Variable words : list Word.
Variable is_cancelled : nat -> bool.

Lemma expand_some (pop off off' : list Word) (r r' : Rng) (n n' : nat) :
  expand is_cancelled pop off r n = Some (off', r', n') ->
  exists kids, off' = off ++ kids /\ Forall2 child_of pop kids /\
    n' = n + length pop /\
    (forall i, i < length pop -> is_cancelled (n + i) = false).
Proof.
  revert off r n. induction pop as [|w pop IH]; intros off r n E; cbn [expand] in E.
  - injection E as <- <- <-. exists []. rewrite app_nil_r.
    repeat split; auto; cbn; lia.
  - destruct (is_cancelled n) eqn:Hc; [discriminate|].
    destruct (Mutate.randomly w r) as [child r1] eqn:Er.
    destruct (IH _ _ _ E) as (kids & -> & Hk & -> & Hpoll).
    exists (child :: kids). rewrite <- app_assoc. split; [reflexivity|].
    split; [constructor; [exists r; rewrite Er; reflexivity | exact Hk]|].
    split; [cbn; lia|].
    intros [|i] Hi; [rewrite Nat.add_0_r; exact Hc|].
      replace (n + S i) with (S n + i) by lia. apply Hpoll. cbn in Hi. lia.
Qed.

Lemma expand_cancelled (pop off : list Word) (r : Rng) (n : nat) :
  (exists i, i < length pop /\ is_cancelled (n + i) = true) ->
  expand is_cancelled pop off r n = None.
Proof.
  revert off r n. induction pop as [|w pop IH]; intros off r n (i & Hi & Hc);
    cbn [length expand] in Hi |- *; [lia|].
  destruct (is_cancelled n) eqn:Hn; [reflexivity|].
  destruct (Mutate.randomly w r) as [child r1]. apply IH.
  destruct i as [|i]; [rewrite Nat.add_0_r in Hc; congruence|].
  exists i. split; [lia|]. replace (S n + i) with (n + S i) by lia. exact Hc.
Qed.

Lemma expand_complete (pop off : list Word) (r : Rng) (n : nat) :
  (forall i, i < length pop -> is_cancelled (n + i) = false) ->
  exists off' r' , expand is_cancelled pop off r n = Some (off', r', n + length pop).
Proof.
  revert off r n. induction pop as [|w pop IH]; intros off r n Hall; cbn [expand length].
  - exists off, r. rewrite Nat.add_0_r. reflexivity.
  - pose proof (Hall 0 ltac:(cbn; lia)) as H0. rewrite Nat.add_0_r in H0.
    rewrite H0. destruct (Mutate.randomly w r) as [child r1].
    destruct (IH (off ++ [child]) r1 (S n)) as (off' & r' & E).
    { intros i Hi. replace (S n + i) with (n + S i) by lia. apply Hall. cbn. lia. }
    exists off', r'. rewrite E. f_equal. f_equal. lia.
Qed.

(** What one completed generation does. *)
Lemma generation_step_spec (w w' : World) :
  generation_step words is_cancelled w = Some w' ->
  exists offspring,
    Forall2 child_of (population w) offspring /\
    population w' = filter (mem words) (population w ++ offspring) /\
    generation w' = S (generation w) /\
    survival w' = survival w /\
    polls w' = polls w + length (population w) /\
    heap w' = append (heap w) (survival w)
                (survival_rate (length (population w ++ offspring)) (population w')) /\
    events w' = events w ++
      [Progress.mk (length (population w')) (unique (population w')) (generation w)
         (length (population w ++ offspring) - length (population w'))
         (survival w)].
Proof.
  unfold generation_step.
  destruct (expand is_cancelled (population w) [] (rng w) (polls w))
    as [[[off r'] n']|] eqn:E; [|discriminate].
  intros H. injection H as <-.
  destruct (expand_some _ _ _ _ _ _ _ E) as (kids & -> & Hk & -> & _).
  exists kids. repeat split; auto.
Qed.

Lemma loop_invariant (P : World -> Prop) (target_population : Z) :
  (forall w w', P w -> generation_step words is_cancelled w = Some w' -> P w') ->
  forall fuel w, P w -> P (fst (loop words is_cancelled target_population fuel w)).
Proof.
  intros Hstep fuel. induction fuel as [|fuel IH]; intros w Hw; cbn; [exact Hw|].
  destruct (guard target_population (population w)); [|exact Hw].
  destruct (generation_step words is_cancelled w) as [w'|] eqn:E; [|exact Hw].
  apply IH. exact (Hstep w w' Hw E).
Qed.

End LoopFacts.

(** ** C7: one offspring per member, parents kept *)

(** C7: a completed generation makes one child per member, culls the
    parents followed by their children, and reports
    [population_size + last_cull], the size before culling, as twice the
    previous population. *)
Theorem generation_doubles (words : list Word) (is_cancelled : nat -> bool)
    (w w' : World) :
  generation_step words is_cancelled w = Some w' ->
  exists offspring,
    Forall2 child_of (population w) offspring /\
    length offspring = length (population w) /\
    population w' = filter (mem words) (population w ++ offspring) /\
    exists ev, events w' = events w ++ [ev] /\
      Progress.population_size ev + Progress.last_cull ev = 2 * length (population w).
Proof.
  intros E.
  destruct (generation_step_spec _ _ _ _ E) as (off & Hk & Hpop & _ & _ & _ & _ & Hev).
  pose proof (Forall2_length Hk) as Hlen.
  exists off. split; [exact Hk|]. split; [lia|]. split; [exact Hpop|].
  eexists. split; [exact Hev|]. cbn.
  pose proof (filter_length_le (mem words) (population w ++ off)) as Hle.
  rewrite <- Hpop in Hle. rewrite length_app in *. lia.
Qed.

Lemma generation_doubles_witness :
  exists w',
    generation_step [word "a"; word "b"] (fun _ => false)
      (init_world [] (fun _ => 0) (word "a")) = Some w' /\
    exists offspring,
      Forall2 child_of (population (init_world [] (fun _ => 0) (word "a"))) offspring /\
      length offspring = length (population (init_world [] (fun _ => 0) (word "a"))) /\
      population w' = filter (mem [word "a"; word "b"])
        (population (init_world [] (fun _ => 0) (word "a")) ++ offspring) /\
      exists ev, events w' = events (init_world [] (fun _ => 0) (word "a")) ++ [ev] /\
        Progress.population_size ev + Progress.last_cull ev =
          2 * length (population (init_world [] (fun _ => 0) (word "a"))).
Proof.
  eexists. split; [reflexivity|].
  apply (generation_doubles [word "a"; word "b"] (fun _ => false)). reflexivity.
Defined.

(** ** C5: cancellation *)

(** C5: when a loop test passes and [worker.is_cancelled] reads true at
    one of the polls of this generation (one poll per member, from poll
    [polls w] on), the worker returns at once: the state, and with it the
    list of posted [Progress] messages, is that of the previous
    generation, and the outcome is [Cancelled], which sends no
    notification. *)
Theorem cancellation_is_silent (words : list Word) (is_cancelled : nat -> bool)
    (target_population : Z) (fuel : nat) (w : World) :
  guard target_population (population w) = true ->
  (exists i, i < length (population w) /\ is_cancelled (polls w + i) = true) ->
  loop words is_cancelled target_population (S fuel) w = (w, Cancelled).
Proof.
  intros Hg Hc. cbn [loop]. rewrite Hg. unfold generation_step.
  rewrite (expand_cancelled _ _ _ _ _ Hc). reflexivity.
Qed.

Lemma cancellation_is_silent_witness :
  guard 10 (population (init_world [] (fun _ => 0) (word "a"))) = true /\
  (exists i, i < length (population (init_world [] (fun _ => 0) (word "a"))) /\
     (fun n => n =? 0) (polls (init_world [] (fun _ => 0) (word "a")) + i) = true) /\
  loop [word "a"] (fun n => n =? 0) 10 1 (init_world [] (fun _ => 0) (word "a")) =
    (init_world [] (fun _ => 0) (word "a"), Cancelled).
Proof.
  assert (Hg : guard 10 (population (init_world [] (fun _ => 0) (word "a"))) = true)
    by reflexivity.
  assert (Hc : exists i, i < length (population (init_world [] (fun _ => 0) (word "a"))) /\
     (fun n => n =? 0) (polls (init_world [] (fun _ => 0) (word "a")) + i) = true)
    by (exists 0; split; [cbn; lia | reflexivity]).
  split; [exact Hg|]. split; [exact Hc|].
  exact (cancellation_is_silent [word "a"] (fun n => n =? 0) 10 0 _ Hg Hc).
Defined.

(** ** C6: a target of at most one *)

Lemma run_world_guard_false (words : list Word) (is_cancelled : nat -> bool)
    (h0 : Heap) (r : Rng) (p : Word) (target_population : Z) (fuel : nat) :
  (target_population <= 1)%Z ->
  run_world words is_cancelled h0 r p target_population (S fuel) =
    (init_world h0 r p, Reached 1 0).
Proof.
  intros Ht. unfold run_world, init_world, alloc. cbn [loop population guard].
  replace (Z.of_nat (length [p]) <? target_population)%Z with false
    by (symmetry; apply Z.ltb_ge; cbn; lia).
  unfold finish. cbn. destruct (in_dec (list_eq_dec ascii_dec) p []); [contradiction|].
  reflexivity.
Qed.

(** C6: with [target_population <= 1] the loop body never runs: no
    [Progress] message is posted and the run ends with the Reached
    notification for 1 unique word in 0 generations. *)
Theorem small_target_reached (words : list Word) (is_cancelled : nat -> bool)
    (h0 : Heap) (r : Rng) (p : Word) (target_population : Z) (fuel : nat) :
  (target_population <= 1)%Z ->
  events (fst (run_world words is_cancelled h0 r p target_population (S fuel))) = [] /\
  snd (run_world words is_cancelled h0 r p target_population (S fuel)) = Reached 1 0.
Proof.
  intros Ht. rewrite (run_world_guard_false _ _ _ _ _ _ _ Ht).
  split; [|reflexivity]. unfold init_world, alloc. reflexivity.
Qed.

Lemma small_target_reached_witness :
  (1 <= 1)%Z /\
  events (fst (run_world [word "a"] (fun _ => false) [] (fun _ => 0) (word "a") 1 5)) = [] /\
  snd (run_world [word "a"] (fun _ => false) [] (fun _ => 0) (word "a") 1 5) = Reached 1 0.
Proof.
  split; [lia|]. apply (small_target_reached [word "a"] (fun _ => false) [] (fun _ => 0) (word "a") 1 4).
  lia.
Defined.

(** ** C4: a progenitor from the vocabulary never dies out *)

Lemma loop_collapsed (words : list Word) (is_cancelled : nat -> bool)
    (target_population : Z) (fuel : nat) (w : World) :
  snd (loop words is_cancelled target_population fuel w) = Collapsed ->
  population (fst (loop words is_cancelled target_population fuel w)) = [].
Proof.
  revert w. induction fuel as [|fuel IH]; intros w; cbn; [discriminate|].
  destruct (guard target_population (population w)).
  - destruct (generation_step words is_cancelled w) as [w'|]; [apply IH | discriminate].
  - unfold finish. cbn. destruct (population w); [reflexivity | discriminate].
Qed.

(** C4: when the progenitor is in the vocabulary it is in the population
    after every cull (and so among the unique words of every [Progress]
    message), and the run never ends with the collapse notification. *)
Theorem progenitor_survives (words : list Word) (is_cancelled : nat -> bool)
    (h0 : Heap) (r : Rng) (p : Word) (target_population : Z) (fuel : nat) :
  In p words ->
  In p (population (fst (run_world words is_cancelled h0 r p target_population fuel))) /\
  Forall (fun ev => In p (Progress.unique_words ev))
    (events (fst (run_world words is_cancelled h0 r p target_population fuel))) /\
  snd (run_world words is_cancelled h0 r p target_population fuel) <> Collapsed.
Proof.
  intros Hp.
  set (P := fun w => In p (population w) /\
                     Forall (fun ev => In p (Progress.unique_words ev)) (events w)).
  assert (Hinv : P (fst (run_world words is_cancelled h0 r p target_population fuel))).
  { unfold run_world. apply loop_invariant.
    - intros w w' [Hin Hev] E.
      destruct (generation_step_spec _ _ _ _ E) as (off & _ & Hpop & _ & _ & _ & _ & Hevs).
      assert (Hin' : In p (population w')).
      { rewrite Hpop, filter_In, mem_In. split; [apply in_or_app; left|]; assumption. }
      split; [exact Hin'|]. rewrite Hevs. apply Forall_app. split; [exact Hev|].
      constructor; [|constructor]. cbn. unfold unique. apply nodup_In. exact Hin'.
    - unfold init_world, alloc. split; [left; reflexivity | constructor]. }
  destruct Hinv as [Hin Hev]. split; [exact Hin|]. split; [exact Hev|].
  intros Hc. apply loop_collapsed in Hc. unfold run_world in Hin. rewrite Hc in Hin.
  exact Hin.
Qed.

Lemma progenitor_survives_witness :
  In (word "a") [word "a"; word "ab"] /\
  In (word "a") (population (fst (run_world [word "a"; word "ab"] (fun _ => false) []
                                    (fun i => i) (word "a") 4 3))) /\
  Forall (fun ev => In (word "a") (Progress.unique_words ev))
    (events (fst (run_world [word "a"; word "ab"] (fun _ => false) []
                   (fun i => i) (word "a") 4 3))) /\
  snd (run_world [word "a"; word "ab"] (fun _ => false) [] (fun i => i) (word "a") 4 3)
    <> Collapsed.
Proof.
  split; [left; reflexivity|].
  apply (progenitor_survives [word "a"; word "ab"] (fun _ => false) [] (fun i => i) (word "a") 4 3).
  left; reflexivity.
Defined.

(** ** C3: the survival history *)

Lemma survival_rate_reported (before : nat) (pop : list Word) :
  length pop <= before ->
  survival_rate before pop =
  reported_survival_rate (Progress.mk (length pop) (unique pop) 0 (before - length pop) 0).
Proof.
  intros Hle. unfold reported_survival_rate, survival_rate.
  cbn [Progress.population_size Progress.last_cull].
  replace (length pop + (before - length pop)) with before by lia.
  destruct pop as [|x pop]; reflexivity.
Qed.

Lemma load_append (h : Heap) (s : Ref) (x : float) :
  s < length h -> load (append h s x) s = load h s ++ [x].
Proof. intros Hs. unfold append. apply load_store. exact Hs. Qed.

Lemma length_append (h : Heap) (s : Ref) (x : float) :
  length (append h s x) = length h.
Proof. apply length_store. Qed.

(** C3 (as the code does it): after any run, the survival list holds one
    entry per completed generation, and the k-th entry is [0] when nobody
    survived the k-th cull and otherwise [(100 / before) * after] in double
    precision, for the [before] and [after] of the k-th generation as
    reported by its [Progress] message. *)
Theorem survival_history_entries (words : list Word) (is_cancelled : nat -> bool)
    (h0 : Heap) (r : Rng) (p : Word) (target_population : Z) (fuel : nat) :
  let w := fst (run_world words is_cancelled h0 r p target_population fuel) in
  Forall2 (fun ev x => x = reported_survival_rate ev)
    (events w) (load (heap w) (survival w)) /\
  length (load (heap w) (survival w)) = generation w /\
  length (events w) = generation w.
Proof.
  set (P := fun w => survival w < length (heap w) /\
    Forall2 (fun ev x => x = reported_survival_rate ev)
      (events w) (load (heap w) (survival w)) /\
    length (events w) = generation w).
  assert (Hinv : P (fst (run_world words is_cancelled h0 r p target_population fuel))).
  { unfold run_world. apply loop_invariant.
    - intros w w' (Hs & Hf & Hl) E.
      destruct (generation_step_spec _ _ _ _ E)
        as (off & _ & Hpop & Hgen & Hsv & _ & Hheap & Hevs).
      unfold P. rewrite Hsv, Hheap, Hevs, Hgen, length_append, load_append by exact Hs.
      split; [exact Hs|]. split.
      + apply Forall2_app; [exact Hf|]. constructor; [|constructor].
        pose proof (filter_length_le (mem words) (population w ++ off)) as Hle.
        rewrite <- Hpop in Hle.
        rewrite (survival_rate_reported _ _ Hle). unfold reported_survival_rate. reflexivity.
      + rewrite length_app. cbn. lia.
    - unfold P, init_world, alloc. cbn.
      rewrite length_app. cbn. split; [lia|].
      unfold load. rewrite app_nth2, Nat.sub_diag by lia. split; [constructor | reflexivity]. }
  destruct Hinv as (_ & Hf & Hl). cbv zeta.
  split; [exact Hf|]. rewrite <- (Forall2_length Hf). split; exact Hl.
Qed.

(** C3 fails: the code's [(100 / before) * after] is rounded twice.  In
    this run (vocabulary [{"a"}], target 100) the population grows
    1, 2, 4, 8, then 11 after five deletions, and all 11 children of
    generation 4 survive: [before = after = 22], and the entry appended is
    [100.00000000000001], not [100 * 22 / 22 = 100]. *)
Lemma survival_rate_not_exact :
  let w := fst (run_world [word "a"] (fun _ => false) []
                  (fun i => nth i (repeat 0 30 ++ concat (repeat [1; 0] 5) ++ repeat 0 33) 0)
                  (word "a") 100 5) in
  exists evs ev, events w = evs ++ [ev] /\
    Progress.population_size ev = 22 /\ Progress.last_cull ev = 0 /\
    last (load (heap w) (survival w)) 0%float = 0x1.9000000000001p6%float /\
    claimed_survival_ratio ev = 100%float /\
    last (load (heap w) (survival w)) 0%float <> claimed_survival_ratio ev.
Proof.
  intros w. exists (firstn 4 (events w)), (nth 4 (events w) (Progress.mk 0 [] 0 0 0)).
  vm_compute. split; [reflexivity|].
  split; [reflexivity|]. split; [reflexivity|]. split; [reflexivity|].
  split; [reflexivity | discriminate].
Qed.

(** ** C1: the survival list in the [Progress] messages *)

(** C1 (as the code does it): every [Progress] message of a run carries
    the one list object [survival] allocated at the start of [run_world],
    not a copy of it; reading a message's history later therefore shows
    the entries appended by the later generations. *)
Theorem progress_shares_survival (words : list Word) (is_cancelled : nat -> bool)
    (h0 : Heap) (r : Rng) (p : Word) (target_population : Z) (fuel : nat) :
  let w := fst (run_world words is_cancelled h0 r p target_population fuel) in
  survival w = length h0 /\
  Forall (fun ev => Progress.survival_history ev = survival w) (events w).
Proof.
  set (P := fun w => survival w = length h0 /\
    Forall (fun ev => Progress.survival_history ev = length h0) (events w)).
  assert (Hinv : P (fst (run_world words is_cancelled h0 r p target_population fuel))).
  { unfold run_world. apply loop_invariant.
    - intros w w' (Hs & Hf) E.
      destruct (generation_step_spec _ _ _ _ E) as (off & _ & _ & _ & Hsv & _ & _ & Hevs).
      unfold P. rewrite Hsv, Hevs. split; [exact Hs|].
      apply Forall_app. split; [exact Hf|]. constructor; [exact Hs | constructor].
    - unfold P, init_world, alloc. split; [reflexivity | constructor]. }
  destruct Hinv as (Hs & Hf). cbv zeta. split; [exact Hs|]. rewrite Hs. exact Hf.
Qed.

(** C1 fails: in a run on the vocabulary {"a"} from "a" with target 3,
    the message of generation 0 holds a history of length 1 when the
    generation ends, and the same message holds a history of length 2
    once generation 1 has appended its rate. *)
Lemma progress_history_not_snapshot :
  exists ev,
    events (fst (run_world [word "a"] (fun _ => false) [] (fun _ => 0) (word "a") 3 1))
      = [ev] /\
    hd_error (events (fst (run_world [word "a"] (fun _ => false) [] (fun _ => 0)
                            (word "a") 3 2))) = Some ev /\
    length (load (heap (fst (run_world [word "a"] (fun _ => false) [] (fun _ => 0)
                               (word "a") 3 1))) (Progress.survival_history ev)) = 1 /\
    length (load (heap (fst (run_world [word "a"] (fun _ => false) [] (fun _ => 0)
                               (word "a") 3 2))) (Progress.survival_history ev)) = 2.
Proof.
  eexists. split; [reflexivity|]. split; [reflexivity|]. split; reflexivity.
Qed.

(** ** C9: no validation in the loop *)

(** C9 fails: [run_world] runs a target of 0 to the Reached notification,
    an empty progenitor through a generation (a [Progress] message, then
    the collapse notification), and [start_world] replaces a target of 0
    with [DEFAULT_TARGET] and starts again. *)
Lemma invalid_configuration_runs :
  snd (run_world [word "a"] (fun _ => false) [] (fun _ => 0) (word "a") 0 1)
    = Reached 1 0 /\
  length (events (fst (run_world [word "a"] (fun _ => false) [] (fun _ => 0) [] 2 2))) = 1 /\
  snd (run_world [word "a"] (fun _ => false) [] (fun _ => 0) [] 2 2) = Collapsed /\
  fst (start_world [word "a"] 2 (Some 0%Z) (fun _ => 0)) =
    Some (Started (Some DEFAULT_TARGET) DEFAULT_TARGET (word "a")).
Proof. repeat split; reflexivity. Qed.

Lemma mutate_empty (r : Rng) : fst (Mutate.randomly [] r) = [].
Proof.
  destruct (randomly_cases [] r) as (r' & [E | [E | E]]); rewrite E; reflexivity.
Qed.

Lemma progenitor_spec (words : list Word) (r0 : Rng) (p : Word) :
  fst (progenitor words r0) = Some p -> In p words /\ length p = 1.
Proof.
  unfold progenitor.
  destruct (filter (fun w => length w =? 1) words) as [|c cs] eqn:Ec; [discriminate|].
  unfold rbind. pose proof (choice_In [] (c :: cs) r0 ltac:(discriminate)) as Hin.
  destruct (choice [] (c :: cs) r0) as [x r1]. cbn [fst] in Hin. cbn. intros [= <-].
  rewrite <- Ec, filter_In, Nat.eqb_eq in Hin. exact Hin.
Qed.

Lemma progenitor_none_spec (words : list Word) (r0 : Rng) :
  fst (progenitor words r0) = None <-> (forall x, In x words -> length x <> 1).
Proof.
  unfold progenitor.
  destruct (filter (fun w => length w =? 1) words) as [|c cs] eqn:Ec.
  - split; [|reflexivity]. intros _ x Hx H1.
    assert (Hin : In x (filter (fun w => length w =? 1) words))
      by (apply filter_In; split; [exact Hx | apply Nat.eqb_eq; exact H1]).
    rewrite Ec in Hin. exact Hin.
  - unfold rbind. destruct (choice [] (c :: cs) r0) as [y r1]. cbn. split; [discriminate|].
    intros H. assert (Hc : In c (filter (fun w => length w =? 1) words))
      by (rewrite Ec; left; reflexivity).
    apply filter_In in Hc. destruct Hc as [Hc Hl]. apply Nat.eqb_eq in Hl.
    exfalso. exact (H c Hc Hl).
Qed.

Lemma start_world_retry (words : list Word) (value : option Z) (r0 : Rng) :
  (match value with Some n => n | None => 0 end < 1)%Z ->
  fst (start_world words 2 value r0) =
  Some (match fst (progenitor words r0) with
        | Some p => Started (Some DEFAULT_TARGET) DEFAULT_TARGET p
        | None => NoProgenitor
        end).
Proof.
  intros Hv. cbn [start_world].
  replace ((match value with Some n => n | None => 0 end <? 1)%Z) with true
    by (symmetry; apply Z.ltb_lt; exact Hv).
  replace (DEFAULT_TARGET <? 1)%Z with false by reflexivity.
  unfold rbind. destruct (progenitor words r0) as [x r1]. reflexivity.
Qed.

(** C9 (as the code does it): the only check is in [start_world], which
    replaces a target below 1 (or an input that is not an integer) with
    [DEFAULT_TARGET] and calls itself again, and passes a one-letter word
    of the vocabulary as progenitor; [run_world] checks nothing: a target
    below 1 ends at once with the Reached notification after 0
    generations, and an empty progenitor (mutated to itself by every
    operator) is run for a generation and collapses. *)
Theorem invalid_configuration_handling :
  (forall words r0 (value : option Z),
     (match value with Some n => n | None => 0 end < 1)%Z ->
     fst (start_world words 2 value r0) =
     Some (match fst (progenitor words r0) with
           | Some p => Started (Some DEFAULT_TARGET) DEFAULT_TARGET p
           | None => NoProgenitor
           end)) /\
  (forall words r0 p, fst (progenitor words r0) = Some p -> In p words /\ length p = 1) /\
  (forall words is_cancelled h0 r p target_population fuel,
     (target_population < 1)%Z ->
     run_world words is_cancelled h0 r p target_population (S fuel) =
       (init_world h0 r p, Reached 1 0)) /\
  (forall words is_cancelled h0 r target_population fuel,
     ~ In [] words -> (2 <= target_population)%Z -> is_cancelled 0 = false ->
     length (events (fst (run_world words is_cancelled h0 r [] target_population
                            (S (S fuel))))) = 1 /\
     snd (run_world words is_cancelled h0 r [] target_population (S (S fuel))) = Collapsed).
Proof.
  split; [|split; [|split]].
  - intros words r0 value. exact (start_world_retry words value r0).
  - exact progenitor_spec.
  - intros words is_cancelled h0 r p target_population fuel Ht.
    apply run_world_guard_false. lia.
  - intros words is_cancelled h0 r target_population fuel Hnot Ht Hc.
    unfold run_world, init_world, alloc. cbn [loop population guard].
    unfold generation_step. cbn [population polls rng expand]. rewrite Hc.
    destruct (Mutate.randomly [] r) as [child r1] eqn:Er.
    pose proof (mutate_empty r) as Hm. rewrite Er in Hm. cbn in Hm. subst child.
    cbn [expand app population].
    assert (Hm0 : mem words [] = false).
    { destruct (mem words []) eqn:E; [|reflexivity]. apply mem_In in E. contradiction. }
    cbn [filter]. rewrite Hm0. cbn.
    replace (1 <? target_population)%Z with true by (symmetry; apply Z.ltb_lt; lia).
    split; reflexivity.
Qed.

(** ** C10: the characters of the population *)

Lemma lower_char_idem (c : ascii) : lower_char (lower_char c) = lower_char c.
Proof. destruct c as [[] [] [] [] [] [] [] []]; reflexivity. Qed.

Lemma lowercase_lower_fixed (c : ascii) : In c ascii_lowercase -> lower_char c = c.
Proof.
  intros H. cbn in H. repeat (destruct H as [<- | H]; [reflexivity|]). contradiction.
Qed.

Lemma load_words_lower (text : string) (x : Word) (c : ascii) :
  In x (load_words text) -> In c x -> lower_char c = c.
Proof.
  unfold load_words, unique. rewrite nodup_In, in_map_iff.
  intros (t & <- & _) Hc. unfold lower in Hc. apply in_map_iff in Hc.
  destruct Hc as (c0 & <- & _). apply lower_char_idem.
Qed.

Lemma In_firstn_l {A} (n : nat) (l : list A) (a : A) : In a (firstn n l) -> In a l.
Proof. intros H. rewrite <- (firstn_skipn n l). apply in_or_app. left. exact H. Qed.

Lemma In_skipn_l {A} (n : nat) (l : list A) (a : A) : In a (skipn n l) -> In a l.
Proof. intros H. rewrite <- (firstn_skipn n l). apply in_or_app. right. exact H. Qed.

Lemma randomly_lower_from (p x : Word) (r : Rng) :
  lower_from p x -> lower_from p (fst (Mutate.randomly x r)).
Proof.
  intros Hx. destruct x as [|a x']; [rewrite mutate_empty; exact Hx|].
  assert (Hne : a :: x' <> []) by discriminate.
  assert (Hnew : forall c, In c ascii_lowercase ->
                   lower_char c = c /\ (In c ascii_lowercase \/ In c p))
    by (intros c Hc; split; [apply lowercase_lower_fixed|left]; exact Hc).
  destruct (randomly_cases (a :: x') r) as (r' & [E | [E | E]]); rewrite E.
  - destruct (point_shape _ r' Hne) as (k & c & _ & Hc & ->).
    intros d Hd. apply in_app_or in Hd as [Hd | Hd]; [apply Hx; eapply In_firstn_l; exact Hd|].
    destruct Hd as [<- | Hd]; [apply Hnew; exact Hc|]. apply Hx. eapply In_skipn_l; exact Hd.
  - destruct (deletion_shape _ r' Hne) as (k & _ & ->).
    intros d Hd. apply in_app_or in Hd as [Hd | Hd]; apply Hx;
      [eapply In_firstn_l | eapply In_skipn_l]; exact Hd.
  - destruct (insertion_shape _ r' Hne) as (k & c & _ & Hc & ->).
    intros d Hd. apply in_app_or in Hd as [Hd | Hd]; [apply Hx; eapply In_firstn_l; exact Hd|].
    destruct Hd as [<- | Hd]; [apply Hnew; exact Hc|]. apply Hx. eapply In_skipn_l; exact Hd.
Qed.

Lemma child_lower_from (p x y : Word) :
  lower_from p x -> child_of x y -> lower_from p y.
Proof. intros Hx (r & <-). apply randomly_lower_from. exact Hx. Qed.

Lemma Forall2_child_In (pop off : list Word) (y : Word) :
  Forall2 child_of pop off -> In y off -> exists x, In x pop /\ child_of x y.
Proof.
  induction 1 as [|x y' pop off Hxy _ IH]; intros Hy; [contradiction|].
  destruct Hy as [<- | Hy]; [exists x; split; [left; reflexivity | exact Hxy]|].
  destruct (IH Hy) as (x0 & Hx0 & Hc). exists x0. split; [right|]; assumption.
Qed.

Lemma lower_from_lower (p x : Word) : lower_from p x -> lower x = x.
Proof.
  intros Hx. unfold lower. rewrite <- (map_id x) at 2. apply map_ext_in.
  intros c Hc. apply Hx. exact Hc.
Qed.

(** C10 (as the code does it): with the progenitor [p] drawn by
    [progenitor] from the loaded vocabulary, every word of the population
    at any point of any run, and every child mutated from one, consists of
    lowercase ASCII letters and characters of [p], all unchanged by
    [str.lower()]; so the plain membership test of the cull gives the same
    answer as a test on the lower-cased word. *)
Theorem population_words_lower (text : string) (r0 : Rng) (p : Word) :
  fst (progenitor (load_words text) r0) = Some p ->
  forall is_cancelled h0 r target_population fuel x,
    In x (population (fst (run_world (load_words text) is_cancelled h0 r p
                             target_population fuel))) ->
    (forall c, In c x -> In c ascii_lowercase \/ In c p) /\
    lower x = x /\
    mem (load_words text) x = mem (load_words text) (lower x) /\
    (forall y, child_of x y -> lower y = y /\
       (forall c, In c y -> In c ascii_lowercase \/ In c p)).
Proof.
  intros Hp is_cancelled h0 r target_population fuel.
  destruct (progenitor_spec _ _ _ Hp) as [Hpin _].
  assert (Hp0 : lower_from p p).
  { intros c Hc. split; [exact (load_words_lower text p c Hpin Hc) | right; exact Hc]. }
  set (P := fun w => forall x, In x (population w) -> lower_from p x).
  assert (Hinv : P (fst (run_world (load_words text) is_cancelled h0 r p
                           target_population fuel))).
  { unfold run_world. apply loop_invariant.
    - intros w w' Hw E x Hx.
      destruct (generation_step_spec _ _ _ _ E) as (off & Hk & Hpop & _).
      rewrite Hpop, filter_In in Hx. destruct Hx as [Hx _].
      apply in_app_or in Hx as [Hx | Hx]; [apply Hw; exact Hx|].
      destruct (Forall2_child_In _ _ _ Hk Hx) as (x0 & Hx0 & Hc).
      eapply child_lower_from; [apply Hw; exact Hx0 | exact Hc].
    - unfold P, init_world, alloc. intros x [<- | []]. exact Hp0. }
  intros x Hx. pose proof (Hinv x Hx) as Hlx.
  split; [intros c Hc; apply Hlx; exact Hc|].
  split; [apply (lower_from_lower p); exact Hlx|].
  split; [rewrite (lower_from_lower p x Hlx); reflexivity|].
  intros y Hy. pose proof (child_lower_from p x y Hlx Hy) as Hly.
  split; [apply (lower_from_lower p); exact Hly | intros c Hc; apply Hly; exact Hc].
Qed.

Lemma population_words_lower_witness :
  fst (progenitor (load_words "A b Cd") (fun _ => 0)) = Some (word "a") /\
  In (word "a") (population (fst (run_world (load_words "A b Cd") (fun _ => false) []
                                    (fun _ => 0) (word "a") 3 2))) /\
  (forall c, In c (word "a") -> In c ascii_lowercase \/ In c (word "a")) /\
  lower (word "a") = word "a" /\
  mem (load_words "A b Cd") (word "a") = mem (load_words "A b Cd") (lower (word "a")) /\
  (forall y, child_of (word "a") y -> lower y = y /\
     (forall c, In c y -> In c ascii_lowercase \/ In c (word "a"))).
Proof.
  assert (Hp : fst (progenitor (load_words "A b Cd") (fun _ => 0)) = Some (word "a"))
    by reflexivity.
  assert (Hx : In (word "a") (population (fst (run_world (load_words "A b Cd") (fun _ => false)
                 [] (fun _ => 0) (word "a") 3 2)))) by (vm_compute; left; reflexivity).
  split; [exact Hp|]. split; [exact Hx|].
  exact (population_words_lower "A b Cd" (fun _ => 0) (word "a") Hp
           (fun _ => false) [] (fun _ => 0) 3 2 (word "a") Hx).
Defined.

(** C10 fails: the loader keeps whatever the word file holds, lower-cased;
    from the file "& a" the progenitor can be "&", which is then the whole
    first population, and "&" is not a lowercase ASCII letter. *)
Lemma population_word_not_letters :
  fst (progenitor (load_words "& a") (fun _ => 0)) = Some (word "&") /\
  In (word "&") (population (fst (run_world (load_words "& a") (fun _ => false) []
                                    (fun _ => 0) (word "&") 3000 0))) /\
  ~ In "&"%char ascii_lowercase.
Proof.
  split; [reflexivity|]. split; [left; reflexivity|].
  intros H. cbn in H. repeat (destruct H as [H | H]; [discriminate|]). exact H.
Qed.

(** * Further properties of the code *)

(** ** The mutation operators *)

(** [point] keeps the length and changes the word at one index at most. *)
Theorem point_one_position (w : Word) (r : Rng) :
  w <> [] ->
  length (fst (Mutate.point w r)) = length w /\
  exists p, p < length w /\
    forall i, i <> p -> nth_error (fst (Mutate.point w r)) i = nth_error w i.
Proof.
  intros Hw. split; [apply (mutation_lengths w r Hw)|].
  destruct (point_shape w r Hw) as (p & c & Hp & _ & ->).
  exists p. split; [exact Hp|]. intros i Hi.
  assert (Hlen : length (firstn p w) = p) by (rewrite length_firstn; lia).
  destruct (Nat.lt_ge_cases i p) as [Hlt | Hge].
  - rewrite nth_error_app1 by lia. rewrite nth_error_firstn.
    replace (i <? p) with true by (symmetry; apply Nat.ltb_lt; exact Hlt). reflexivity.
  - rewrite nth_error_app2 by lia. rewrite Hlen.
    replace (i - p) with (S (i - p - 1)) by lia. cbn [app nth_error].
    rewrite nth_error_skipn. f_equal. lia.
Qed.

Lemma point_one_position_witness :
  word "dog" <> [] /\
  length (fst (Mutate.point (word "dog") (fun i => i))) = length (word "dog") /\
  exists p, p < length (word "dog") /\
    forall i, i <> p -> nth_error (fst (Mutate.point (word "dog") (fun i => i))) i
                        = nth_error (word "dog") i.
Proof.
  split; [discriminate|]. apply (point_one_position (word "dog") (fun i => i)). discriminate.
Defined.

(** Removing the inserted letter undoes [insertion]: some index below
    [len(word)] gives the original word back. *)
Theorem insertion_remove_roundtrip (w : Word) (r : Rng) :
  w <> [] ->
  exists p, p < length w /\ remove_at p (fst (Mutate.insertion w r)) = w.
Proof.
  intros Hw. destruct (insertion_shape w r Hw) as (p & c & Hp & _ & ->).
  exists p. split; [exact Hp|]. unfold remove_at.
  assert (Hlen : length (firstn p w) = p) by (rewrite length_firstn; lia).
  rewrite firstn_app, skipn_app, Hlen, Nat.sub_diag.
  rewrite firstn_firstn, Nat.min_id. cbn [firstn]. rewrite app_nil_r.
  rewrite skipn_all2 by lia. replace (p + 1 - p) with 1 by lia. cbn.
  apply firstn_skipn.
Qed.

Lemma insertion_remove_roundtrip_witness :
  word "ant" <> [] /\
  exists p, p < length (word "ant") /\
    remove_at p (fst (Mutate.insertion (word "ant") (fun i => 5 * i))) = word "ant".
Proof.
  split; [discriminate|]. apply (insertion_remove_roundtrip (word "ant") (fun i => 5 * i)).
  discriminate.
Defined.

(** ** The evolution loop *)

Lemma run_invariant (words : list Word) (is_cancelled : nat -> bool) (P : World -> Prop)
    (h0 : Heap) (r : Rng) (p : Word) (target_population : Z) (fuel : nat) :
  P (init_world h0 r p) ->
  (forall w w', P w -> generation_step words is_cancelled w = Some w' -> P w') ->
  P (fst (run_world words is_cancelled h0 r p target_population fuel)).
Proof. intros Hi Hs. unfold run_world. apply loop_invariant; assumption. Qed.

Lemma init_world_fields (h0 : Heap) (r : Rng) (p : Word) :
  population (init_world h0 r p) = [p] /\ generation (init_world h0 r p) = 0 /\
  events (init_world h0 r p) = [] /\ polls (init_world h0 r p) = 0.
Proof. unfold init_world, alloc. repeat split. Qed.

Lemma run_generation_numbers (words : list Word) (is_cancelled : nat -> bool)
    (h0 : Heap) (r : Rng) (p : Word) (target_population : Z) (fuel : nat) :
  map Progress.generation
    (events (fst (run_world words is_cancelled h0 r p target_population fuel)))
  = seq 0 (generation (fst (run_world words is_cancelled h0 r p target_population fuel))).
Proof.
  apply (run_invariant words is_cancelled
           (fun w => map Progress.generation (events w) = seq 0 (generation w))).
  - destruct (init_world_fields h0 r p) as (_ & -> & -> & _). reflexivity.
  - intros w w' Hw E.
    destruct (generation_step_spec _ _ _ _ E) as (off & _ & _ & Hg & _ & _ & _ & Hevs).
    rewrite Hevs, Hg, map_app, Hw, seq_S. reflexivity.
Qed.

(** The [Progress] messages of a run are numbered 0, 1, 2, ... in the
    order they are posted, one per completed generation: their number is
    the final value of the loop's [generation] counter. *)
Theorem progress_generations_in_order (words : list Word) (is_cancelled : nat -> bool)
    (h0 : Heap) (r : Rng) (p : Word) (target_population : Z) (fuel : nat) :
  let w := fst (run_world words is_cancelled h0 r p target_population fuel) in
  map Progress.generation (events w) = seq 0 (generation w) /\
  length (events w) = generation w.
Proof.
  cbv zeta. rewrite run_generation_numbers. split; [reflexivity|].
  rewrite <- (length_seq (generation _) 0), <- run_generation_numbers, length_map.
  reflexivity.
Qed.

(** After every completed generation, whatever the progenitor, each word
    of the population and each unique word reported is in the vocabulary. *)
Theorem survivors_in_vocabulary (words : list Word) (is_cancelled : nat -> bool)
    (h0 : Heap) (r : Rng) (p : Word) (target_population : Z) (fuel : nat) :
  let w := fst (run_world words is_cancelled h0 r p target_population fuel) in
  (0 < generation w -> forall x, In x (population w) -> In x words) /\
  Forall (fun ev => forall x, In x (Progress.unique_words ev) -> In x words) (events w).
Proof.
  apply (run_invariant words is_cancelled
    (fun w => (0 < generation w -> forall x, In x (population w) -> In x words) /\
       Forall (fun ev => forall x, In x (Progress.unique_words ev) -> In x words) (events w))).
  - destruct (init_world_fields h0 r p) as (_ & -> & -> & _). split; [lia | constructor].
  - intros w w' [_ Hev] E.
    destruct (generation_step_spec _ _ _ _ E) as (off & _ & Hpop & _ & _ & _ & _ & Hevs).
    assert (Hin : forall x, In x (population w') -> In x words).
    { intros x Hx. rewrite Hpop, filter_In, mem_In in Hx. apply Hx. }
    split; [intros _; exact Hin|]. rewrite Hevs. apply Forall_app. split; [exact Hev|].
    constructor; [|constructor]. cbn. intros x Hx. unfold unique in Hx.
    rewrite nodup_In in Hx. apply Hin. exact Hx.
Qed.

Lemma StronglySorted_snoc (l : list nat) (x : nat) :
  StronglySorted le l -> Forall (fun y => y <= x) l -> StronglySorted le (l ++ [x]).
Proof.
  induction 1 as [|a l Hs IH Ha]; intros Hf; cbn.
  - repeat constructor.
  - inversion Hf as [|? ? Hax Hl]; subst. constructor; [apply IH; exact Hl|].
    apply Forall_app. split; [exact Ha | constructor; [exact Hax | constructor]].
Qed.

Lemma filter_all (f : Word -> bool) (l : list Word) :
  (forall x, In x l -> f x = true) -> filter f l = l.
Proof.
  induction l as [|a l IH]; intros H; cbn; [reflexivity|].
  rewrite (H a (or_introl eq_refl)), IH; [reflexivity|]. intros x Hx. apply H. right. exact Hx.
Qed.

(** When the progenitor is in the vocabulary the population never
    shrinks: the sizes reported by the [Progress] messages never decrease,
    and none exceeds the current population. *)
Theorem population_never_shrinks (words : list Word) (is_cancelled : nat -> bool)
    (h0 : Heap) (r : Rng) (p : Word) (target_population : Z) (fuel : nat) :
  In p words ->
  let w := fst (run_world words is_cancelled h0 r p target_population fuel) in
  StronglySorted le (map Progress.population_size (events w)) /\
  Forall (fun ev => 1 <= Progress.population_size ev <= length (population w)) (events w).
Proof.
  intros Hp.
  set (P := fun w => (forall x, In x (population w) -> In x words) /\
    1 <= length (population w) /\
    StronglySorted le (map Progress.population_size (events w)) /\
    Forall (fun ev => 1 <= Progress.population_size ev <= length (population w)) (events w)).
  enough (H : P (fst (run_world words is_cancelled h0 r p target_population fuel)))
    by (destruct H as (_ & _ & H1 & H2); split; assumption).
  apply run_invariant.
  - unfold P. destruct (init_world_fields h0 r p) as (-> & _ & -> & _).
    split; [intros x [<- | []]; exact Hp|]. split; [cbn; lia|].
    split; constructor.
  - intros w w' (Hin & Hne & Hs & Hf) E.
    destruct (generation_step_spec _ _ _ _ E) as (off & _ & Hpop & _ & _ & _ & _ & Hevs).
    assert (Hge : length (population w) <= length (population w')).
    { rewrite Hpop, filter_app, length_app, (filter_all _ (population w)); [lia|].
      intros x Hx. apply mem_In, Hin, Hx. }
    split; [intros x Hx; rewrite Hpop, filter_In, mem_In in Hx; apply Hx|].
    split; [lia|]. rewrite Hevs, map_app. cbn [map Progress.population_size]. split.
    + apply StronglySorted_snoc; [exact Hs|]. rewrite Forall_map.
      eapply Forall_impl; [|exact Hf]. cbn. lia.
    + apply Forall_app. split; [eapply Forall_impl; [|exact Hf]; cbn; lia|].
      constructor; [cbn; lia | constructor].
Qed.

Lemma population_never_shrinks_witness :
  In (word "a") [word "a"; word "b"; word "ab"] /\
  StronglySorted le (map Progress.population_size
    (events (fst (run_world [word "a"; word "b"; word "ab"] (fun _ => false) []
                   (fun i => i) (word "a") 5 4)))) /\
  Forall (fun ev => 1 <= Progress.population_size ev <=
            length (population (fst (run_world [word "a"; word "b"; word "ab"]
                     (fun _ => false) [] (fun i => i) (word "a") 5 4))))
    (events (fst (run_world [word "a"; word "b"; word "ab"] (fun _ => false) []
                   (fun i => i) (word "a") 5 4))).
Proof.
  split; [left; reflexivity|].
  apply (population_never_shrinks [word "a"; word "b"; word "ab"] (fun _ => false) []
           (fun i => i) (word "a") 5 4).
  left; reflexivity.
Defined.

Lemma loop_reached (words : list Word) (is_cancelled : nat -> bool)
    (target_population : Z) (fuel : nat) (w : World) (u g : nat) :
  snd (loop words is_cancelled target_population fuel w) = Reached u g ->
  let w' := fst (loop words is_cancelled target_population fuel w) in
  population w' <> [] /\ (target_population <= Z.of_nat (length (population w')))%Z /\
  u = length (unique (population w')) /\ g = generation w'.
Proof.
  revert w. induction fuel as [|fuel IH]; intros w; cbn; [discriminate|].
  destruct (guard target_population (population w)) eqn:Hg.
  - destruct (generation_step words is_cancelled w) as [w'|]; [apply IH | discriminate].
  - unfold finish. cbn. destruct (population w) as [|x xs] eqn:Ep; [discriminate|].
    intros [= <- <-]. unfold guard in Hg. apply Z.ltb_ge in Hg.
    split; [discriminate|]. split; [exact Hg|]. split; reflexivity.
Qed.

(** A run that ends with the Reached notification stops with a non-empty
    population of at least [target_population] words; the notification
    gives the number of distinct words of that population and the number of
    generations, which is the number of [Progress] messages posted. *)
Theorem reached_meets_target (words : list Word) (is_cancelled : nat -> bool)
    (h0 : Heap) (r : Rng) (p : Word) (target_population : Z) (fuel u g : nat) :
  snd (run_world words is_cancelled h0 r p target_population fuel) = Reached u g ->
  let w := fst (run_world words is_cancelled h0 r p target_population fuel) in
  population w <> [] /\ (target_population <= Z.of_nat (length (population w)))%Z /\
  u = length (unique (population w)) /\ g = length (events w).
Proof.
  intros H. destruct (loop_reached _ _ _ _ _ _ _ H) as (H1 & H2 & H3 & H4).
  split; [exact H1|]. split; [exact H2|]. split; [exact H3|]. rewrite H4.
  pose proof (f_equal (@length nat) (run_generation_numbers words is_cancelled h0 r p
                                       target_population fuel)) as Hl.
  rewrite length_map, length_seq in Hl. symmetry. exact Hl.
Qed.

Lemma reached_meets_target_witness :
  snd (run_world [word "a"] (fun _ => false) [] (fun _ => 0) (word "a") 3 5) = Reached 1 2 /\
  population (fst (run_world [word "a"] (fun _ => false) [] (fun _ => 0) (word "a") 3 5)) <> [] /\
  (3 <= Z.of_nat (length (population
         (fst (run_world [word "a"] (fun _ => false) [] (fun _ => 0%nat) (word "a") 3 5)))))%Z /\
  1 = length (unique (population
         (fst (run_world [word "a"] (fun _ => false) [] (fun _ => 0) (word "a") 3 5)))) /\
  2 = length (events (fst (run_world [word "a"] (fun _ => false) [] (fun _ => 0) (word "a") 3 5))).
Proof.
  assert (H : snd (run_world [word "a"] (fun _ => false) [] (fun _ => 0) (word "a") 3 5)
              = Reached 1 2) by reflexivity.
  split; [exact H|].
  exact (reached_meets_target [word "a"] (fun _ => false) [] (fun _ => 0) (word "a") 3 5 1 2 H).
Defined.

(** A run that ends with the collapse notification has an empty
    population, and it got there in a completed generation: the last
    [Progress] message reports a population of 0 and no unique words. *)
Theorem collapse_reported (words : list Word) (is_cancelled : nat -> bool)
    (h0 : Heap) (r : Rng) (p : Word) (target_population : Z) (fuel : nat) :
  snd (run_world words is_cancelled h0 r p target_population fuel) = Collapsed ->
  let w := fst (run_world words is_cancelled h0 r p target_population fuel) in
  population w = [] /\
  exists evs ev, events w = evs ++ [ev] /\
    Progress.population_size ev = 0 /\ Progress.unique_words ev = [].
Proof.
  intros Hc. pose proof (loop_collapsed _ _ _ _ _ Hc) as Hpop.
  assert (Hinv : let w := fst (run_world words is_cancelled h0 r p target_population fuel) in
    (events w = [] /\ population w <> []) \/
    exists evs ev, events w = evs ++ [ev] /\
      Progress.population_size ev = length (population w) /\
      Progress.unique_words ev = unique (population w)).
  { apply (run_invariant words is_cancelled (fun w =>
      (events w = [] /\ population w <> []) \/
      exists evs ev, events w = evs ++ [ev] /\
        Progress.population_size ev = length (population w) /\
        Progress.unique_words ev = unique (population w))).
    - destruct (init_world_fields h0 r p) as (-> & _ & -> & _). left. split; [reflexivity | discriminate].
    - intros w w' _ E.
      destruct (generation_step_spec _ _ _ _ E) as (off & _ & _ & _ & _ & _ & _ & Hevs).
      right. rewrite Hevs. do 2 eexists. split; [reflexivity|]. split; reflexivity. }
  cbv zeta in Hinv |- *. unfold run_world in Hinv |- *. rewrite Hpop in Hinv |- *.
  split; [reflexivity|].
  destruct Hinv as [[_ Hne] | (evs & ev & He & Hs & Hu)]; [congruence|].
  exists evs, ev. split; [exact He|]. split; [exact Hs | exact Hu].
Qed.

Lemma collapse_reported_witness :
  snd (run_world [word "b"] (fun _ => false) [] (fun _ => 0) (word "a") 3 5) = Collapsed /\
  population (fst (run_world [word "b"] (fun _ => false) [] (fun _ => 0) (word "a") 3 5)) = [] /\
  exists evs ev,
    events (fst (run_world [word "b"] (fun _ => false) [] (fun _ => 0) (word "a") 3 5))
      = evs ++ [ev] /\
    Progress.population_size ev = 0 /\ Progress.unique_words ev = [].
Proof.
  assert (H : snd (run_world [word "b"] (fun _ => false) [] (fun _ => 0) (word "a") 3 5)
              = Collapsed) by reflexivity.
  split; [exact H|].
  exact (collapse_reported [word "b"] (fun _ => false) [] (fun _ => 0) (word "a") 3 5 H).
Defined.

(** A generation in which no poll of [worker.is_cancelled] reads true
    always completes, and it polls the flag exactly once per member of the
    population. *)
Theorem uncancelled_generation_completes (words : list Word) (is_cancelled : nat -> bool)
    (w : World) :
  (forall i, i < length (population w) -> is_cancelled (polls w + i) = false) ->
  exists w', generation_step words is_cancelled w = Some w' /\
    polls w' = polls w + length (population w).
Proof.
  intros Hall.
  destruct (expand_complete is_cancelled (population w) [] (rng w) (polls w) Hall)
    as (off & r' & E).
  unfold generation_step. rewrite E. eexists. split; reflexivity.
Qed.

Lemma uncancelled_generation_completes_witness :
  (forall i, i < length (population (init_world [] (fun _ => 0) (word "a"))) ->
     (fun n => 1 <=? n) (polls (init_world [] (fun _ => 0) (word "a")) + i) = false) /\
  exists w', generation_step [word "a"] (fun n => 1 <=? n)
               (init_world [] (fun _ => 0) (word "a")) = Some w' /\
    polls w' = polls (init_world [] (fun _ => 0) (word "a")) +
               length (population (init_world [] (fun _ => 0) (word "a"))).
Proof.
  assert (H : forall i, i < length (population (init_world [] (fun _ => 0) (word "a"))) ->
     (fun n => 1 <=? n) (polls (init_world [] (fun _ => 0) (word "a")) + i) = false).
  { intros i Hi. cbn in Hi |- *. destruct i; [reflexivity | lia]. }
  split; [exact H|].
  exact (uncancelled_generation_completes [word "a"] (fun n => 1 <=? n) _ H).
Defined.

(** ** Loading the vocabulary and launching a run *)

Lemma split_aux_words (s : list ascii) (cur x : Word) :
  (forall c, In c cur -> is_space c = false) ->
  In x (split_aux s cur) -> x <> [] /\ forall c, In c x -> is_space c = false.
Proof.
  revert cur. induction s as [|c s IH]; intros cur Hcur Hx; cbn [split_aux] in Hx.
  - destruct cur as [|a cur]; [contradiction|]. destruct Hx as [<- | []].
    split; [intros H; apply (f_equal (@length ascii)) in H; rewrite length_rev in H; discriminate|].
    intros d Hd. apply Hcur. apply in_rev. exact Hd.
  - destruct (is_space c) eqn:Hc.
    + destruct cur as [|a cur]; [apply (IH []); [intros _ []|exact Hx]|].
      destruct Hx as [<- | Hx]; [|apply (IH []); [intros _ []|exact Hx]].
      split; [intros H; apply (f_equal (@length ascii)) in H; rewrite length_rev in H; discriminate|].
      intros d Hd. apply Hcur. apply in_rev. exact Hd.
    + apply (IH (c :: cur)); [|exact Hx]. intros d [<- | Hd]; [exact Hc | apply Hcur; exact Hd].
Qed.

Lemma is_space_lower_char (c : ascii) : is_space (lower_char c) = is_space c.
Proof. destruct c as [[] [] [] [] [] [] [] []]; reflexivity. Qed.

(** The vocabulary built by [load_words] holds no duplicate, no empty
    word and no word with a whitespace character, and every word in it is
    already lower-case. *)
Theorem loaded_words_wellformed (text : string) :
  NoDup (load_words text) /\
  forall x, In x (load_words text) ->
    x <> [] /\ (forall c, In c x -> is_space c = false) /\ lower x = x.
Proof.
  split; [apply NoDup_nodup|].
  intros x Hx. unfold load_words, unique in Hx. rewrite nodup_In, in_map_iff in Hx.
  destruct Hx as (t & <- & Ht).
  destruct (split_aux_words _ [] t (fun _ H => match H with end) Ht) as [Hne Hsp].
  split; [destruct t; [contradiction | discriminate]|]. split.
  - intros c Hc. unfold lower in Hc. apply in_map_iff in Hc. destruct Hc as (d & <- & Hd).
    rewrite is_space_lower_char. apply Hsp. exact Hd.
  - unfold lower. rewrite map_map. apply map_ext. apply lower_char_idem.
Qed.

(** [progenitor] fails (the [IndexError] of [choice] on an empty list)
    exactly when the vocabulary has no one-letter word. *)
Theorem progenitor_none_iff (words : list Word) (r0 : Rng) :
  fst (progenitor words r0) = None <-> (forall x, In x words -> length x <> 1).
Proof.
  unfold progenitor.
  destruct (filter (fun w => length w =? 1) words) as [|c cs] eqn:Ec.
  - split; [|reflexivity]. intros _ x Hx H1.
    assert (Hin : In x (filter (fun w => length w =? 1) words))
      by (apply filter_In; split; [exact Hx | apply Nat.eqb_eq; exact H1]).
    rewrite Ec in Hin. exact Hin.
  - unfold rbind. destruct (choice [] (c :: cs) r0) as [y r1]. cbn. split; [discriminate|].
    intros H. assert (Hc : In c (filter (fun w => length w =? 1) words)) by (rewrite Ec; left; reflexivity).
    apply filter_In in Hc. destruct Hc as [Hc Hl]. apply Nat.eqb_eq in Hl.
    exfalso. exact (H c Hc Hl).
Qed.

(** [start_world] settles on a target of at least 1 after at most one
    retry: the typed target when it is an integer of at least 1,
    [DEFAULT_TARGET] otherwise, which it also leaves in the input.  It
    starts a run with a one-letter word of the vocabulary as progenitor,
    and fails with the [IndexError] of [progenitor] exactly when the
    vocabulary has no one-letter word. *)
Theorem start_world_target (words : list Word) (value : option Z) (r0 : Rng) :
  match fst (start_world words 2 value r0) with
  | Some (Started v t p) =>
      (1 <= t)%Z /\ In p words /\ length p = 1 /\
      (forall n, value = Some n -> (1 <= n)%Z -> t = n /\ v = value) /\
      ((match value with Some n => n | None => 0 end < 1)%Z ->
         t = DEFAULT_TARGET /\ v = Some DEFAULT_TARGET)
  | Some NoProgenitor => forall x, In x words -> length x <> 1
  | None => False
  end.
Proof.
  destruct (Z.ltb_spec (match value with Some n => n | None => 0 end) 1) as [Hv | Hv].
  - rewrite (start_world_retry words value r0 Hv).
    destruct (fst (progenitor words r0)) as [p|] eqn:Ep.
    + destruct (progenitor_spec words r0 p Ep) as [Hin Hl].
      split; [unfold DEFAULT_TARGET; lia|]. split; [exact Hin|]. split; [exact Hl|].
      split; [intros n -> Hn; lia | intros _; split; reflexivity].
    + apply (proj1 (progenitor_none_spec words r0)). exact Ep.
  - cbn [start_world].
    replace ((match value with Some n => n | None => 0 end <? 1)%Z) with false
      by (symmetry; apply Z.ltb_ge; exact Hv).
    unfold rbind. pose proof (progenitor_spec words r0) as Hs.
    pose proof (proj1 (progenitor_none_spec words r0)) as Hn.
    destruct (progenitor words r0) as [[p|] r1]; cbn [fst rret] in *.
    + destruct (Hs p eq_refl) as [Hin Hl].
      split; [exact Hv|]. split; [exact Hin|]. split; [exact Hl|].
      split; [intros n -> _; split; reflexivity | intros H; lia].
    + exact (Hn eq_refl).
Qed.

(** ** The widgets *)



Lemma insert_perm {A} (leb : A -> A -> bool) (x : A) (l : list A) :
  Permutation (insert leb x l) (x :: l).
Proof.
  induction l as [|y l IH]; cbn; [reflexivity|].
  destruct (leb x y); [reflexivity|].
  rewrite IH. apply perm_swap.
Qed.

Lemma sorted_perm {A} (leb : A -> A -> bool) (l : list A) : Permutation (sorted leb l) l.
Proof.
  induction l as [|x l IH]; cbn; [reflexivity|].
  rewrite insert_perm, IH. reflexivity.
Qed.

Lemma insert_Sorted {A} (leb : A -> A -> bool) (x : A) (l : list A) :
  (forall a b, leb a b = false -> leb b a = true) ->
  Sorted (fun a b => leb a b = true) l -> Sorted (fun a b => leb a b = true) (insert leb x l).
Proof.
  intros Htot. induction 1 as [|y l Hs IH Hhd]; cbn.
  - repeat constructor.
  - destruct (leb x y) eqn:Exy; [constructor; [constructor; assumption | constructor; exact Exy]|].
    constructor; [exact IH|].
    destruct l as [|z l]; cbn; [constructor; apply Htot; exact Exy|].
    inversion Hhd as [|? ? Hyz]; subst.
    destruct (leb x z); constructor; [apply Htot; exact Exy | exact Hyz].
Qed.

Lemma sorted_Sorted {A} (leb : A -> A -> bool) (l : list A) :
  (forall a b, leb a b = false -> leb b a = true) ->
  Sorted (fun a b => leb a b = true) (sorted leb l).
Proof.
  intros Htot. induction l as [|x l IH]; cbn; [constructor|].
  apply insert_Sorted; assumption.
Qed.

Lemma str_leb_total (a b : Word) : str_leb a b = false -> str_leb b a = true.
Proof.
  revert b. induction a as [|x a IH]; intros [|y b] H; cbn [str_leb] in H |- *; try discriminate; auto.
  destruct (nat_of_ascii x <? nat_of_ascii y) eqn:Elt; [discriminate H|].
  destruct (nat_of_ascii x =? nat_of_ascii y) eqn:Eeq.
  - apply Nat.eqb_eq in Eeq. rewrite Eeq, Nat.ltb_irrefl, Nat.eqb_refl. apply IH, H.
  - apply Nat.ltb_ge in Elt. apply Nat.eqb_neq in Eeq.
    replace (nat_of_ascii y <? nat_of_ascii x) with true
      by (symmetry; apply Nat.ltb_lt; lia). reflexivity.
Qed.

Lemma split_aux_word (w rest cur : list ascii) :
  (forall c, In c w -> is_space c = false) ->
  split_aux (w ++ rest) cur = split_aux rest (rev w ++ cur).
Proof.
  revert cur. induction w as [|c w IH]; intros cur Hw; [reflexivity|].
  cbn [app split_aux]. rewrite (Hw c (or_introl eq_refl)).
  rewrite IH by (intros d Hd; apply Hw; right; exact Hd).
  cbn. rewrite <- app_assoc. reflexivity.
Qed.

Lemma split_join_space (ws : list Word) :
  (forall w, In w ws -> w <> [] /\ forall c, In c w -> is_space c = false) ->
  split_aux (join_space ws) [] = ws.
Proof.
  induction ws as [|w ws IH]; intros Hws; [reflexivity|].
  destruct (Hws w (or_introl eq_refl)) as [Hne Hsp].
  assert (Hrev : rev w <> []) by (intros H; apply Hne; rewrite <- (rev_involutive w), H; reflexivity).
  destruct ws as [|w' ws].
  - cbn [join_space]. rewrite <- (app_nil_r w) at 1. rewrite split_aux_word by exact Hsp.
    rewrite app_nil_r. destruct (rev w) as [|a t] eqn:Er; [congruence|].
    cbn [split_aux]. rewrite <- Er, rev_involutive. reflexivity.
  - change (join_space (w :: w' :: ws)) with (w ++ " "%char :: join_space (w' :: ws)).
    rewrite split_aux_word by exact Hsp. rewrite app_nil_r.
    cbn [split_aux]. replace (is_space " "%char) with true by reflexivity.
    destruct (rev w) as [|a t] eqn:Er; [congruence|].
    rewrite <- Er, rev_involutive, IH; [reflexivity|].
    intros v Hv. apply Hws. right. exact Hv.
Qed.

(** [Words.update] shows every unique word once, in [str] order: splitting
    the text on whitespace gives back the words sorted, a permutation of
    the set, when no word is empty or holds whitespace (as for words of
    the vocabulary). *)
Theorem words_text_roundtrip (unique_words : list Word) :
  (forall w, In w unique_words -> w <> [] /\ forall c, In c w -> is_space c = false) ->
  split_aux (words_text unique_words) [] = sorted str_leb unique_words /\
  Permutation (sorted str_leb unique_words) unique_words /\
  Sorted (fun a b => str_leb a b = true) (sorted str_leb unique_words).
Proof.
  intros Hws. split; [|split; [apply sorted_perm | apply sorted_Sorted, str_leb_total]].
  apply split_join_space. intros w Hw. apply Hws.
  apply (Permutation_in _ (sorted_perm str_leb unique_words)). exact Hw.
Qed.

Lemma words_text_roundtrip_witness :
  (forall w, In w [word "dog"; word "ant"; word "an"] ->
     w <> [] /\ forall c, In c w -> is_space c = false) /\
  split_aux (words_text [word "dog"; word "ant"; word "an"]) [] =
    sorted str_leb [word "dog"; word "ant"; word "an"] /\
  Permutation (sorted str_leb [word "dog"; word "ant"; word "an"]) [word "dog"; word "ant"; word "an"] /\
  Sorted (fun a b => str_leb a b = true) (sorted str_leb [word "dog"; word "ant"; word "an"]).
Proof.
  assert (H : forall w, In w [word "dog"; word "ant"; word "an"] ->
     w <> [] /\ forall c, In c w -> is_space c = false).
  { intros w Hw. cbn in Hw.
    repeat (destruct Hw as [<- | Hw];
            [split; [discriminate | intros c Hc; cbn in Hc;
               repeat (destruct Hc as [<- | Hc]; [reflexivity|]); contradiction]|]).
    contradiction. }
  split; [exact H|]. exact (words_text_roundtrip _ H).
Defined.

(** ** The [SizeCounts] table *)

Lemma filter_rev {A} (f : A -> bool) (l : list A) : filter f (rev l) = rev (filter f l).
Proof.
  induction l as [|x l IH]; cbn; [reflexivity|].
  rewrite filter_app, IH. cbn. destruct (f x); cbn; [reflexivity | apply app_nil_r].
Qed.

Lemma group_rev_filter (l : list ascii) :
  filter not_comma (group_rev l) = filter not_comma l.
Proof.
  remember (length l) as n eqn:En. revert l En.
  induction n as [n IH] using lt_wf_ind. intros l En.
  destruct l as [|a [|b [|c [|d t]]]]; try reflexivity.
  change (group_rev (a :: b :: c :: d :: t)) with (a :: b :: c :: ","%char :: group_rev (d :: t)).
  change (a :: b :: c :: ","%char :: group_rev (d :: t))
    with ([a; b; c] ++ ","%char :: group_rev (d :: t)).
  change (a :: b :: c :: d :: t) with ([a; b; c] ++ d :: t).
  rewrite !filter_app. f_equal.
  change (filter not_comma (","%char :: group_rev (d :: t)))
    with (filter not_comma (group_rev (d :: t))).
  rewrite (IH (length (d :: t))) by (subst; cbn; lia || reflexivity).
  reflexivity.
Qed.

Lemma is_digit_not_int_space (c : ascii) : is_digit c = true -> is_int_space c = false.
Proof.
  intros H. destruct c as [[] [] [] [] [] [] [] []];
    vm_compute in H; vm_compute; (reflexivity || discriminate H).
Qed.

Lemma is_digit_not_comma (c : ascii) : is_digit c = true -> not_comma c = true.
Proof.
  intros H. destruct c as [[] [] [] [] [] [] [] []];
    vm_compute in H; vm_compute; (reflexivity || discriminate H).
Qed.

Lemma digit_char (d : nat) : d < 10 ->
  is_digit (ascii_of_nat (48 + d)) = true /\ digit_value (ascii_of_nat (48 + d)) = Z.of_nat d.
Proof.
  intros Hd. unfold is_digit, digit_value.
  rewrite nat_ascii_embedding by lia. split; [apply andb_true_intro; split; apply Nat.leb_le; lia|].
  f_equal. lia.
Qed.

Lemma dec_aux_digits (fuel n : nat) :
  0 < fuel -> dec_aux fuel n <> [] /\ forall c, In c (dec_aux fuel n) -> is_digit c = true.
Proof.
  revert n. induction fuel as [|fuel IH]; intros n Hf; [lia|]. cbn [dec_aux].
  destruct (n <? 10) eqn:Hn.
  - apply Nat.ltb_lt in Hn. split; [discriminate|]. intros c [<- | []].
    apply (digit_char n Hn).
  - split; [destruct (dec_aux fuel (n / 10)); discriminate|].
    intros c Hc. apply in_app_or in Hc as [Hc | [<- | []]].
    + destruct fuel as [|fuel]; [contradiction|]. apply (IH (n / 10) ltac:(lia)). exact Hc.
    + apply digit_char, Nat.mod_upper_bound. lia.
Qed.

Lemma dec_aux_value (fuel n : nat) (acc : Z) :
  n < fuel ->
  fold_left digit_step (dec_aux fuel n) acc =
    (acc * 10 ^ Z.of_nat (length (dec_aux fuel n)) + Z.of_nat n)%Z.
Proof.
  revert n acc. induction fuel as [|fuel IH]; intros n acc Hf; [lia|]. cbn [dec_aux].
  destruct (n <? 10) eqn:Hn.
  - apply Nat.ltb_lt in Hn. cbn [fold_left length]. unfold digit_step.
    rewrite (proj2 (digit_char n Hn)). cbn [Z.of_nat Pos.of_succ_nat Pos.succ]. lia.
  - apply Nat.ltb_ge in Hn.
    rewrite fold_left_app, IH by (apply Nat.Div0.div_lt_upper_bound; lia).
    cbn [fold_left]. unfold digit_step at 1.
    rewrite (proj2 (digit_char (n mod 10) (Nat.mod_upper_bound n 10 ltac:(lia)))).
    rewrite length_app. cbn [length]. rewrite Nat2Z.inj_add, Z.pow_add_r by lia.
    pose proof (Nat.div_mod_eq n 10). nia.
Qed.

Lemma digits_value_digits (l : list ascii) (acc : Z) (pd : bool) :
  l <> [] -> (forall c, In c l -> is_digit c = true) ->
  digits_value l acc pd = Some (fold_left digit_step l acc).
Proof.
  revert acc pd. induction l as [|c l IH]; intros acc pd Hne Hd; [congruence|].
  cbn [digits_value fold_left]. rewrite (Hd c (or_introl eq_refl)).
  destruct l as [|c' l]; [reflexivity|].
  apply IH; [discriminate|]. intros d Hd'. apply Hd. right. exact Hd'.
Qed.

Lemma drop_spaces_digits (l : list ascii) :
  l <> [] -> (forall c, In c l -> is_digit c = true) -> drop_spaces is_int_space l = l.
Proof.
  destruct l as [|c l]; intros Hne Hd; [congruence|]. cbn.
  rewrite (is_digit_not_int_space c (Hd c (or_introl eq_refl))). reflexivity.
Qed.

Lemma parse_int_digits (l : list ascii) :
  l <> [] -> (forall c, In c l -> is_digit c = true) ->
  parse_int l = digits_value l 0 false.
Proof.
  intros Hne Hd. unfold parse_int, int_strip.
  rewrite (drop_spaces_digits l Hne Hd).
  rewrite drop_spaces_digits, rev_involutive.
  - destruct l as [|c t]; [congruence|].
    pose proof (Hd c (or_introl eq_refl)) as Hc. clear Hd Hne.
    destruct c as [[] [] [] [] [] [] [] []]; vm_compute in Hc; try discriminate Hc;
      reflexivity.
  - intros H. apply Hne. rewrite <- (rev_involutive l), H. reflexivity.
  - intros c Hc. apply Hd. apply in_rev. exact Hc.
Qed.

(** The count column of [SizeCounts], [f"{count:,}"], is the decimal
    numeral of the count with grouping commas: with the commas taken out,
    [int()] reads the count back. *)
Theorem format_count_roundtrip (n : nat) :
  parse_int (filter not_comma (format_count n)) = Some (Z.of_nat n) /\
  filter not_comma (format_count n) = dec_digits n.
Proof.
  assert (Hdig := dec_aux_digits (S n) n ltac:(lia)). destruct Hdig as [Hne Hd].
  assert (Hf : filter not_comma (format_count n) = dec_digits n).
  { unfold format_count. rewrite filter_rev, group_rev_filter, filter_rev, rev_involutive.
    apply forallb_filter_id, forallb_forall. intros c Hc. apply is_digit_not_comma, Hd, Hc. }
  split; [|exact Hf]. rewrite Hf. unfold dec_digits.
  rewrite parse_int_digits, digits_value_digits by assumption.
  rewrite dec_aux_value by lia. f_equal; lia.
Qed.

Lemma cnt_counter_add (k : nat) (c : list (nat * nat)) (j : nat) :
  cnt (counter_add k c) j = cnt c j + (if k =? j then 1 else 0).
Proof.
  induction c as [|[k' n] c IH]; cbn [counter_add cnt fold_right fst snd].
  - destruct (k =? j); reflexivity.
  - destruct (k =? k') eqn:E.
    + apply Nat.eqb_eq in E. subst k'. cbn [fold_right fst snd].
      destruct (k =? j); lia.
    + cbn [fold_right fst snd]. fold (cnt (counter_add k c) j). fold (cnt c j).
      rewrite IH. destruct (k' =? j); lia.
Qed.

Lemma keys_counter_add (k : nat) (c : list (nat * nat)) (j : nat) :
  In j (map fst (counter_add k c)) <-> j = k \/ In j (map fst c).
Proof.
  induction c as [|[k' n] c IH]; cbn [counter_add map fst In].
  - intuition congruence.
  - destruct (k =? k') eqn:E.
    + apply Nat.eqb_eq in E. subst k'. cbn [map fst In]. intuition congruence.
    + cbn [map fst In]. rewrite IH. intuition congruence.
Qed.

Lemma nodup_counter_add (k : nat) (c : list (nat * nat)) :
  NoDup (map fst c) -> NoDup (map fst (counter_add k c)).
Proof.
  induction c as [|[k' n] c IH]; cbn [counter_add map fst]; intros Hnd.
  - constructor; [intros []|constructor].
  - inversion Hnd as [|? ? Hnin Hnd']; subst.
    destruct (k =? k') eqn:E; cbn [map fst]; [exact Hnd|].
    constructor; [|exact (IH Hnd')].
    rewrite keys_counter_add. apply Nat.eqb_neq in E. intros [-> | H]; [congruence | tauto].
Qed.

Lemma positive_counter_add (k : nat) (c : list (nat * nat)) :
  Forall (fun p => 0 < snd p) c -> Forall (fun p => 0 < snd p) (counter_add k c).
Proof.
  induction c as [|[k' n] c IH]; cbn [counter_add]; intros Hp.
  - constructor; [cbn; lia | constructor].
  - inversion Hp as [|? ? Hn Hp']; subst.
    destruct (k =? k'); constructor; cbn in *; try lia; auto.
Qed.

Lemma counter_fold (ks : list nat) (c : list (nat * nat)) :
  NoDup (map fst c) -> Forall (fun p => 0 < snd p) c ->
  let c' := fold_left (fun c k => counter_add k c) ks c in
  NoDup (map fst c') /\ Forall (fun p => 0 < snd p) c' /\
  (forall j, cnt c' j = cnt c j + count_occ Nat.eq_dec ks j) /\
  (forall j, In j (map fst c') <-> In j (map fst c) \/ In j ks).
Proof.
  revert c. induction ks as [|k ks IH]; intros c Hnd Hp; cbn [fold_left].
  - split; [exact Hnd|]. split; [exact Hp|].
    split; intros j; cbn [count_occ In]; [lia | tauto].
  - destruct (IH (counter_add k c) (nodup_counter_add k c Hnd) (positive_counter_add k c Hp))
      as (H1 & H2 & H3 & H4).
    repeat split; auto.
    + intros j. rewrite H3, cnt_counter_add. cbn [count_occ].
      destruct (Nat.eq_dec k j) as [->|Hne]; [rewrite Nat.eqb_refl; lia|].
      apply Nat.eqb_neq in Hne. rewrite Hne. lia.
    + intros Hj. apply H4 in Hj as [Hj | Hj]; [apply keys_counter_add in Hj|]; cbn; intuition congruence.
    + intros Hj. apply H4. rewrite keys_counter_add. cbn in Hj. intuition congruence.
Qed.

Lemma cnt_not_key (c : list (nat * nat)) (j : nat) : ~ In j (map fst c) -> cnt c j = 0.
Proof.
  induction c as [|[k n] c IH]; cbn; [reflexivity|]. intros H.
  destruct (k =? j) eqn:E; [apply Nat.eqb_eq in E; tauto|]. apply IH. tauto.
Qed.

Lemma cnt_In (c : list (nat * nat)) (k n : nat) :
  NoDup (map fst c) -> In (k, n) c -> cnt c k = n.
Proof.
  induction c as [|[k' m] c IH]; [intros _ []|]. intros Hnd Hin.
  inversion Hnd as [|? ? Hnin Hnd']; subst. cbn [cnt fold_right fst snd].
  destruct Hin as [Heq | Hin].
  - injection Heq as -> ->. rewrite Nat.eqb_refl. fold (cnt c k). rewrite cnt_not_key; auto.
  - assert (k <> k') by (intros ->; apply Hnin, (in_map fst _ _ Hin)).
    apply Nat.eqb_neq in H. rewrite (Nat.eqb_sym k' k), H. apply IH; assumption.
Qed.

Lemma counter_spec (ks : list nat) :
  NoDup (map fst (counter ks)) /\
  (forall k n, In (k, n) (counter ks) <->
     0 < count_occ Nat.eq_dec ks k /\ n = count_occ Nat.eq_dec ks k).
Proof.
  destruct (counter_fold ks [] (NoDup_nil _) (Forall_nil _)) as (Hnd & Hp & Hc & Hk).
  fold (counter ks) in Hnd, Hp, Hc, Hk. split; [exact Hnd|]. intros k n. split.
  - intros Hin. pose proof (cnt_In _ _ _ Hnd Hin) as E. rewrite Hc in E. cbn in E.
    rewrite Forall_forall in Hp. specialize (Hp _ Hin). cbn in Hp. lia.
  - intros [Hpos ->]. apply count_occ_In in Hpos.
    assert (Hkey : In k (map fst (counter ks))) by (apply Hk; tauto).
    apply in_map_iff in Hkey as [[k' m] [Hk' Hin]]. cbn in Hk'. subst k'.
    pose proof (cnt_In _ _ _ Hnd Hin) as E. rewrite Hc in E. cbn in E. subst m. exact Hin.
Qed.

Lemma pair_leb_total (a b : nat * nat) : pair_leb a b = false -> pair_leb b a = true.
Proof.
  unfold pair_leb. destruct a as [a1 a2], b as [b1 b2]; cbn [fst snd].
  intros H. apply orb_false_iff in H as [H1 H2]. apply Nat.ltb_ge in H1.
  apply orb_true_iff. destruct (Nat.eq_dec a1 b1) as [->|Hne].
  - right. rewrite Nat.eqb_refl in *. cbn in *. apply Nat.leb_gt in H2.
    apply Nat.leb_le. lia.
  - left. apply Nat.ltb_lt. lia.
Qed.

Lemma pair_leb_fst (a b : nat * nat) : pair_leb a b = true -> fst a <= fst b.
Proof.
  unfold pair_leb. intros H. apply orb_true_iff in H as [H | H].
  - apply Nat.ltb_lt in H. lia.
  - apply andb_true_iff in H as [H _]. apply Nat.eqb_eq in H. lia.
Qed.

Lemma pair_leb_trans (a b c : nat * nat) :
  pair_leb a b = true -> pair_leb b c = true -> pair_leb a c = true.
Proof.
  destruct a as [a1 a2], b as [b1 b2], c as [c1 c2]. unfold pair_leb; cbn [fst snd].
  rewrite !orb_true_iff, !andb_true_iff, !Nat.ltb_lt, !Nat.eqb_eq, !Nat.leb_le. lia.
Qed.

Lemma strongly_sorted_keys (l : list (nat * nat)) :
  StronglySorted (fun a b => pair_leb a b = true) l -> NoDup (map fst l) ->
  StronglySorted lt (map fst l).
Proof.
  induction 1 as [|x l Hs IH Hall]; cbn [map]; intros Hnd; constructor.
  - inversion Hnd; auto.
  - inversion Hnd as [|? ? Hnin _]; subst. apply Forall_map.
    rewrite Forall_forall in Hall |- *. intros y Hy.
    pose proof (pair_leb_fst _ _ (Hall y Hy)).
    assert (fst x <> fst y) by (intros E; apply Hnin; rewrite E; apply in_map, Hy). lia.
Qed.

(** [SizeCounts.update]: the table has one row per word length present in
    the unique words, in increasing order of length, and the row of a
    length shows the number of unique words of that length. *)
Theorem size_count_rows_spec (ws : list Word) :
  StronglySorted lt (map fst (size_count_rows ws)) /\
  (forall s txt, In (s, txt) (size_count_rows ws) <->
     0 < count_occ Nat.eq_dec (map (@length ascii) ws) s /\
     txt = format_count (count_occ Nat.eq_dec (map (@length ascii) ws) s)).
Proof.
  destruct (counter_spec (map (@length ascii) ws)) as [Hnd Hin].
  set (c := counter (map (@length ascii) ws)) in *.
  pose proof (sorted_perm pair_leb c) as Hperm.
  unfold size_count_rows. fold c. split.
  - rewrite map_map. cbn [fst].
    apply strongly_sorted_keys.
    + apply Sorted_StronglySorted; [intros x y z; apply pair_leb_trans|].
      apply sorted_Sorted, pair_leb_total.
    + eapply Permutation_NoDup; [symmetry; apply Permutation_map, Hperm | exact Hnd].
  - intros s txt. rewrite in_map_iff. split.
    + intros [[k n] [Heq Hp]]. injection Heq as <- <-.
      apply (Permutation_in _ Hperm), Hin in Hp as [Hpos ->]. auto.
    + intros [Hpos ->]. exists (s, count_occ Nat.eq_dec (map (@length ascii) ws) s).
      split; [reflexivity|]. apply (Permutation_in _ (Permutation_sym Hperm)), Hin. auto.
Qed.
